(** * Organic keyframe animator and joint-state publisher

    A shallow embedding of [goliath_animation_generator.py]
    (class [OrganicKeyframeAnimator]) and of the row decoder of
    [blender_joint_publisher_node.py].

    Modelling conventions.
    - Python [int] frame numbers are [Z].
    - Python [float] values are real numbers ([R]); [math.cos], [math.sin]
      and [math.pi] are [cos], [sin] and [PI].  Rounding of IEEE doubles,
      infinities and NaN are not part of this model: an equality between
      two values below is an equality of what the code computes in exact
      arithmetic.
    - Python [dict]s are [gmap]s; numpy arrays are lists with the numpy
      indexing rules written out (negative indices wrap once, anything else
      raises [IndexError]).
    - Exceptions are the [Raise] outcomes of the [result] monad. *)

From Stdlib Require Import Reals Lra ZArith Lia.
From stdpp Require Import base option list gmap strings sorting fin_maps.

#[local] Open Scope string_scope.
#[local] Open Scope Z_scope.

(** ** Python exceptions as an error monad *)

Inductive exn : Type :=
  | IndexError
  | KeyError
  | ValueError
  | TypeError.

Inductive result (A : Type) : Type :=
  | Ok (a : A)
  | Raise (e : exn).
Arguments Ok {A} a.
Arguments Raise {A} e.

#[global] Instance result_ret : MRet result := λ A a, Ok a.

#[global] Instance result_bind : MBind result := λ A B f m,
  match m with
  | Ok a => f a
  | Raise e => Raise e
  end.

(** [d[k]] on a dict: [KeyError] when the key is absent. *)
Definition getitem {K} `{Countable K} {V} (d : gmap K V) (k : K) : result V :=
  match d !! k with
  | Some v => Ok v
  | None => Raise KeyError
  end.

(** [for x in l: s = step x s], stopping at the first exception. *)
Fixpoint for_each {A S} (step : A → S → result S) (l : list A) (s : S) : result S :=
  match l with
  | [] => Ok s
  | x :: l' => s' ← step x s; for_each step l' s'
  end.

(** ** Numeric helpers *)

#[global] Instance Rlt_decision (x y : R) : Decision (x < y)%R := Rlt_dec x y.
#[global] Instance Rle_decision (x y : R) : Decision (x <= y)%R := Rle_dec x y.

(** [int(x)] on a float: truncation towards zero. *)
Definition py_int (x : R) : Z :=
  if decide (0 <= x)%R then Int_part x else - Int_part (- x).

(** [np.mean] of a non-empty slice. *)
Definition np_mean (l : list R) : R :=
  (foldr Rplus 0 l / INR (length l))%R.

(** [np.deg2rad]. *)
Definition deg2rad (x : R) : R := (x * PI / 180)%R.

(** numpy index resolution for an array of length [n]. *)
Definition np_index (n : Z) (i : Z) : result nat :=
  if bool_decide (0 ≤ i < n) then Ok (Z.to_nat i)
  else if bool_decide (- n ≤ i < 0) then Ok (Z.to_nat (n + i))
  else Raise IndexError.

(** [arr[i] = v] on a numpy array. *)
Definition array_set (arr : list R) (i : Z) (v : R) : result (list R) :=
  idx ← np_index (Z.of_nat (length arr)) i;
  Ok (<[idx := v]> arr).

(** [arr[lo:hi]] for [0 <= lo] and [0 <= hi]. *)
Definition slice (arr : list R) (lo hi : Z) : list R :=
  take (Z.to_nat hi - Z.to_nat lo) (drop (Z.to_nat lo) arr).

(** ** The animator *)

Definition rotational_joints : list string :=
  ["joint_1"; "joint_2"; "joint_3"; "joint_4"; "joint_5"; "joint_6"; "joint_7"].

Definition slider_joints : list string := ["Slider 22"; "Slider 23"].

Definition all_joints : list string := (rotational_joints ++ slider_joints)%list.

Record osc_param : Type := OscParam {
  freq : R;
  base_amp : R;
  phase : R
}.

Record animator : Type := Animator {
  total_frames : Z;
  global_osc_factor : R;
  data : gmap string (list R);
  keyframes : gmap Z (gmap string R);
  osc_factors : gmap string R;
  osc_params : gmap string osc_param
}.

Definition set_data (a : animator) (d : gmap string (list R)) : animator :=
  Animator (total_frames a) (global_osc_factor a) d (keyframes a)
           (osc_factors a) (osc_params a).

Definition set_keyframes (a : animator) (k : gmap Z (gmap string R)) : animator :=
  Animator (total_frames a) (global_osc_factor a) (data a) k
           (osc_factors a) (osc_params a).

Definition np_full (n : Z) (v : R) : list R := replicate (Z.to_nat n) v.

(** [__init__], for [total_frames >= 0] (numpy rejects a negative size). *)
Definition init (total_frames : Z) (global_osc_factor : R) : animator :=
  {| total_frames := total_frames;
     global_osc_factor := global_osc_factor;
     data :=
       <["frame" := IZR <$> seqZ 0 total_frames]>
       (<["joint_1" := np_full total_frames 0%R]>
       (<["joint_2" := np_full total_frames 0%R]>
       (<["joint_3" := np_full total_frames 0%R]>
       (<["joint_4" := np_full total_frames 0%R]>
       (<["joint_5" := np_full total_frames 0%R]>
       (<["joint_6" := np_full total_frames 0%R]>
       (<["joint_7" := np_full total_frames 0%R]>
       (<["Slider 22" := np_full total_frames (-0.022)%R]>
       (<["Slider 23" := np_full total_frames 0.022%R]> ∅)))))))));
     keyframes := ∅;
     osc_factors :=
       <["joint_1" := 1.0%R]>
       (<["joint_2" := 0.8%R]>
       (<["joint_3" := 0.6%R]>
       (<["joint_4" := 1.1%R]>
       (<["joint_5" := 1.2%R]>
       (<["joint_6" := 2%R]>
       (<["joint_7" := 0.3%R]>
       (<["Slider 22" := 0.1%R]>
       (<["Slider 23" := 0.1%R]> ∅))))))));
     osc_params :=
       <["joint_1" := OscParam 0.08 3.0 0]>
       (<["joint_2" := OscParam 0.12 2.0 (PI / 4)]>
       (<["joint_3" := OscParam 0.10 1.5 (PI / 2)]>
       (<["joint_4" := OscParam 0.15 4.0 (3 * PI / 4)]>
       (<["joint_5" := OscParam 0.20 5.0 PI]>
       (<["joint_6" := OscParam 0.25 4.0 (5 * PI / 4)]>
       (<["joint_7" := OscParam 0.05 0.5 0]>
       (<["Slider 22" := OscParam 0.3 0.001 0]>
       (<["Slider 23" := OscParam 0.3 0.001 PI]> ∅)))))))) |}.

(** *** Setters

    Each setter returns [self]; the line it prints is returned next to the
    new state.  The text of a printed line is abstracted to a [message]
    (the list of available joints shown by the warning is left out). *)

Inductive message : Type :=
  | GlobalFactorSet (shown : R)
  | JointFactorSet (joint_name : string) (shown : R)
  | JointNotFound (joint_name : string)
  | AllFactorsSet (shown : R)
  | AmplitudeSet (joint_name : string) (shown : R)
  | FrequencySet (joint_name : string) (shown : R).

Definition set_osc_factors (a : animator) (f : gmap string R) : animator :=
  Animator (total_frames a) (global_osc_factor a) (data a) (keyframes a)
           f (osc_params a).

Definition set_osc_params (a : animator) (p : gmap string osc_param) : animator :=
  Animator (total_frames a) (global_osc_factor a) (data a) (keyframes a)
           (osc_factors a) p.

Definition set_global_oscillation_factor (a : animator) (factor : R)
  : animator * list message :=
  let g := Rmax 0.0 factor in
  (Animator (total_frames a) g (data a) (keyframes a) (osc_factors a) (osc_params a),
   [GlobalFactorSet g]).

Definition set_joint_oscillation_factor (a : animator) (joint_name : string) (factor : R)
  : animator * list message :=
  match osc_factors a !! joint_name with
  | Some _ =>
      (set_osc_factors a (<[joint_name := Rmax 0.0 factor]> (osc_factors a)),
       [JointFactorSet joint_name factor])
  | None => (a, [JointNotFound joint_name])
  end.

Definition set_all_joints_oscillation (a : animator) (factor : R)
  : animator * list message :=
  (set_osc_factors a ((λ _, Rmax 0.0 factor) <$> osc_factors a),
   [AllFactorsSet factor]).

Definition set_oscillation_amplitude (a : animator) (joint_name : string) (amplitude : R)
  : animator * list message :=
  match osc_params a !! joint_name with
  | Some p =>
      (set_osc_params a
         (<[joint_name := OscParam (freq p) amplitude (phase p)]> (osc_params a)),
       [AmplitudeSet joint_name amplitude])
  | None => (a, [])
  end.

Definition set_oscillation_frequency (a : animator) (joint_name : string) (frequency : R)
  : animator * list message :=
  match osc_params a !! joint_name with
  | Some p =>
      (set_osc_params a
         (<[joint_name := OscParam frequency (base_amp p) (phase p)]> (osc_params a)),
       [FrequencySet joint_name frequency])
  | None => (a, [])
  end.

(** *** Keyframes *)

(** [add_keyframe]: [self.keyframes[frame] = joints.copy()].  Maps are
    values here, so the stored mapping is a copy (module [Heap] below has
    the same operation on references); the lines it prints are not
    modelled. *)
Definition add_keyframe (a : animator) (frame : Z) (joints : gmap string R) : animator :=
  set_keyframes a (<[frame := joints]> (keyframes a)).

(** [sorted(d.keys())]. *)
Definition sorted_keys {V} (d : gmap Z V) : list Z :=
  merge_sort Z.le (map_to_list d).*1.

(** The frame-0 keyframe synthesised by [generate_movement]. *)
Definition home_pose : gmap string R :=
  <["Slider 23" := 0.022%R]>
  (<["Slider 22" := (-0.022)%R]>
  (list_to_map ((λ joint, (joint, 0%R)) <$> rotational_joints))).

(** "Add start and end keyframes if not present". *)
Definition normalize (total_frames : Z) (kf : gmap Z (gmap string R))
  : result (gmap Z (gmap string R)) :=
  let kf1 := if decide (kf !! 0 = None) then <[0 := home_pose]> kf else kf in
  if decide (kf1 !! (total_frames - 1) = None) then
    first ← getitem kf1 0;
    Ok (<[total_frames - 1 := first]> kf1)
  else Ok kf1.

(** *** Per-cell computation *)

Definition segment_t (start_frame end_frame frame : Z) : R :=
  if decide (start_frame ≠ end_frame)
  then (IZR (frame - start_frame) / IZR (end_frame - start_frame))%R
  else 0%R.

Definition ease (t : R) : R := ((1 - cos (t * PI)) / 2)%R.

(** [d.get(k, dflt)]. *)
Definition dict_get (d : gmap string R) (k : string) (dflt : R) : R :=
  default dflt (d !! k).

Definition precision_frames : Z := 10.

Definition is_precision_zone (sorted_frames : list Z) (frame : Z) : bool :=
  existsb (λ keyframe, bool_decide (Z.abs (frame - keyframe) < precision_frames))
          sorted_frames.

Definition get_oscillation (a : animator) (joint_name : string) (frame : Z)
    (speed_factor : R) : R :=
  match osc_params a !! joint_name with
  | None => 0%R
  | Some params =>
      let joint_factor := default 1.0%R (osc_factors a !! joint_name) in
      let base_osc :=
        (base_amp params * sin (IZR frame * freq params + phase params))%R in
      (base_osc * joint_factor * global_osc_factor a * speed_factor)%R
  end.

Definition is_slider (joint : string) : bool := bool_decide (joint ∈ slider_joints).

Definition start_value (a : animator) (start_frame : Z) (joint : string) : result R :=
  kstart ← getitem (keyframes a) start_frame;
  Ok (dict_get kstart joint 0%R).

Definition end_value (a : animator) (end_frame : Z) (joint : string) (start_val : R)
  : result R :=
  kend ← getitem (keyframes a) end_frame;
  Ok (dict_get kend joint start_val).

Definition base_value (start_val end_val ease_t : R) : R :=
  (start_val + (end_val - start_val) * ease_t)%R.

(** The oscillation added to one cell (lines 175-201). *)
Definition oscillation_term (a : animator) (sorted_frames : list Z)
    (start_frame end_frame frame : Z) (joint : string) (start_val end_val : R)
  : result R :=
  if is_precision_zone sorted_frames frame then Ok 0%R
  else
    factor ← getitem (osc_factors a) joint;
    if decide (0 < factor)%R then
      let movement_distance := Rabs (end_val - start_val) in
      let segment_length := Z.max 1 (end_frame - start_frame) in
      let speed := (movement_distance / IZR segment_length)%R in
      let speed_factor := Rmax 0.1 (1.0 - speed * 0.1) in
      let oscillation := get_oscillation a joint frame speed_factor in
      if is_slider joint && bool_decide (movement_distance < 0.001)%R
      then Ok 0%R
      else Ok oscillation
    else Ok 0%R.

(** The value one segment pass writes into [data[joint][frame]]. *)
Definition cell_value (a : animator) (sorted_frames : list Z)
    (start_frame end_frame frame : Z) (joint : string) : result R :=
  let ease_t := ease (segment_t start_frame end_frame frame) in
  start_val ← start_value a start_frame joint;
  end_val ← end_value a end_frame joint start_val;
  oscillation ← oscillation_term a sorted_frames start_frame end_frame frame
                                 joint start_val end_val;
  Ok (base_value start_val end_val ease_t + oscillation)%R.

(** *** The assembling loops *)

Definition joint_step (a : animator) (sorted_frames : list Z)
    (start_frame end_frame frame : Z) (joint : string) (d : gmap string (list R))
  : result (gmap string (list R)) :=
  v ← cell_value a sorted_frames start_frame end_frame frame joint;
  col ← getitem d joint;
  col' ← array_set col frame v;
  Ok (<[joint := col']> d).

Definition frame_step (a : animator) (sorted_frames : list Z)
    (start_frame end_frame frame : Z) (d : gmap string (list R))
  : result (gmap string (list R)) :=
  for_each (joint_step a sorted_frames start_frame end_frame frame) all_joints d.

Definition segment_step (a : animator) (sorted_frames : list Z)
    (seg : Z * Z) (d : gmap string (list R)) : result (gmap string (list R)) :=
  for_each (frame_step a sorted_frames seg.1 seg.2)
           (seqZ seg.1 (seg.2 + 1 - seg.1)) d.

(** The pairs [(sorted_frames[i], sorted_frames[i+1])]. *)
Definition segments (sorted_frames : list Z) : list (Z * Z) :=
  zip sorted_frames (tail sorted_frames).

(** *** Smoothing *)

Definition moving_average (data : list R) (window_size : Z) : list R :=
  foldl (λ smoothed i,
           let start := Z.max 0 (i - window_size `div` 2) in
           let stop := Z.min (Z.of_nat (length data)) (i + window_size `div` 2 + 1) in
           <[Z.to_nat i := np_mean (slice data start stop)]> smoothed)
        data (seqZ 0 (Z.of_nat (length data))).

Definition smoothing_window (factor : R) : Z := Z.max 3 (py_int (factor * 5)).

Definition smooth_joint (a : animator) (joint : string) (d : gmap string (list R))
  : result (gmap string (list R)) :=
  factor ← getitem (osc_factors a) joint;
  col ← getitem d joint;
  Ok (<[joint := moving_average col (smoothing_window factor)]> d).

Definition _apply_smoothing (a : animator) : result animator :=
  d ← for_each (smooth_joint a) rotational_joints (data a);
  Ok (set_data a d).

(** *** [generate_movement] *)

(** Normalisation and the segment loops: the trajectory before smoothing. *)
Definition assemble (a : animator) : result animator :=
  kf ← normalize (total_frames a) (keyframes a);
  let a1 := set_keyframes a kf in
  let sorted_frames := sorted_keys kf in
  d ← for_each (segment_step a1 sorted_frames) (segments sorted_frames) (data a1);
  Ok (set_data a1 d).

(** The body of [generate_movement] once keyframes exist. *)
Definition generate_with_keyframes (a : animator) : result animator :=
  a' ← assemble a;
  _apply_smoothing a'.

Definition kf_of (l : list (string * R)) : gmap string R := list_to_map l.

(** The keyframes added by [_create_default_movement]. *)
Definition default_keyframes (a : animator) : animator :=
  let a := add_keyframe a 0 (kf_of
    [("joint_1", 0); ("joint_2", 0); ("joint_3", 20); ("joint_4", 0);
     ("joint_5", 0); ("joint_6", 0); ("joint_7", 0);
     ("Slider 22", -0.022); ("Slider 23", 0.022)]%R) in
  let a := add_keyframe a 100 (kf_of
    [("joint_1", 30); ("joint_2", -60); ("joint_3", 30); ("joint_4", 15);
     ("joint_5", 45); ("joint_6", -30); ("joint_7", 5);
     ("Slider 22", -0.003); ("Slider 23", 0.003)]%R) in
  let a := add_keyframe a 200 (kf_of
    [("joint_1", 0); ("joint_2", -84); ("joint_3", 31.2); ("joint_4", 0);
     ("joint_5", 55); ("joint_6", -90); ("joint_7", 0);
     ("Slider 22", -0.003); ("Slider 23", 0.003)]%R) in
  let a := add_keyframe a 210 (kf_of
    [("joint_1", 0); ("joint_2", -84); ("joint_3", 31.2); ("joint_4", 0);
     ("joint_5", 45); ("joint_6", -90); ("joint_7", 0);
     ("Slider 22", -0.022); ("Slider 23", 0.022)]%R) in
  add_keyframe a 399 (kf_of
    [("joint_1", 0); ("joint_2", 0); ("joint_3", 20); ("joint_4", 0);
     ("joint_5", 0); ("joint_6", 0); ("joint_7", 0);
     ("Slider 22", -0.022); ("Slider 23", 0.022)]%R).

(** [_create_default_movement] ends in a call of [generate_movement]; the
    store is no longer empty there (lemma [default_keyframes_nonempty]), so
    that call continues with the body. *)
Definition _create_default_movement (a : animator) : result animator :=
  generate_with_keyframes (default_keyframes a).

Definition generate_movement (a : animator) : result animator :=
  if decide (sorted_keys (keyframes a) = [])
  then _create_default_movement a
  else generate_with_keyframes a.

(** ** Keyframe mappings as shared objects

    A Python [dict] is an object reached through references: the mapping
    handed to [add_keyframe] stays in the caller's hands.  This model keeps
    the objects in a store and lets the keyframe table hold references, to
    tell [joints.copy()] from [joints]. *)

Module Heap.

Record state : Type := State {
  objects : gmap positive (gmap string R);
  keyframe_refs : gmap Z positive
}.

(** [d.copy()]: a new object with the items of [d]. *)
Definition dict_copy (st : state) (d : positive) : result (state * positive) :=
  items ← getitem (objects st) d;
  let r := fresh (dom (objects st)) in
  Ok (State (<[r := items]> (objects st)) (keyframe_refs st), r).

(** [self.keyframes[frame] = joints.copy()]. *)
Definition add_keyframe (st : state) (frame : Z) (joints : positive) : result state :=
  copied ← dict_copy st joints;
  Ok (State (objects copied.1) (<[frame := copied.2]> (keyframe_refs copied.1))).




End Heap.

(** ** The publisher's row decoder *)

Module Publisher.

Record joint_entry : Type := JointEntry {
  csv_column : string;
  is_degree : bool
}.

(** The [joint_config] literal, in insertion order. *)
Definition base_joint_config : list (string * joint_entry) :=
  [("joint_1", JointEntry "joint_1" true);
   ("joint_2", JointEntry "joint_2" true);
   ("joint_3", JointEntry "joint_3" true);
   ("joint_4", JointEntry "joint_4" true);
   ("joint_5", JointEntry "joint_5" true);
   ("joint_6", JointEntry "joint_6" true);
   ("joint_7", JointEntry "joint_7" true);
   ("Slider 22", JointEntry "Slider 22" true);
   ("Slider 23", JointEntry "Slider 23" true)].

Record publisher : Type := Publisher {
  joint_config : gmap string joint_entry;
  joint_names : list string
}.

(** The part of [__init__] that builds [joint_config] and [joint_names]. *)
Definition init (joint_prefix : string) : publisher :=
  let entries :=
    if decide (joint_prefix = "") then base_joint_config
    else (λ e, (joint_prefix +:+ e.1, e.2)) <$> base_joint_config in
  Publisher (list_to_map entries) entries.*1.

(** What a cell of a pandas row can hold. *)
Inductive cell : Type :=
  | CNum (x : R)
  | CStr (s : string)
  | CNone.

(** [float(c)]; [float_of_string] is Python's parser of float literals. *)
Definition py_float (float_of_string : string → option R) (c : cell) : result R :=
  match c with
  | CNum x => Ok x
  | CStr s =>
      match float_of_string s with
      | Some x => Ok x
      | None => Raise ValueError
      end
  | CNone => Raise TypeError
  end.

Definition convert (float_of_string : string → option R) (config : joint_entry)
    (c : cell) : result R :=
  value ← py_float float_of_string c;
  Ok (if is_degree config then deg2rad value else value).

Definition get_joint_values_from_row (float_of_string : string → option R)
    (p : publisher) (row : gmap string cell) : result (list R) :=
  for_each
    (λ joint_name joint_values,
       config ← getitem (joint_config p) joint_name;
       match row !! csv_column config with
       | Some c =>
           match convert float_of_string config c with
           | Ok value => Ok (joint_values ++ [value])%list
           | Raise ValueError | Raise TypeError => Ok (joint_values ++ [0.0%R])%list
           | Raise e => Raise e
           end
       | None => Ok (joint_values ++ [0.0%R])%list
       end)
    (joint_names p) [].

(** What C9 says is published for the channel read from column [col]:
    the cell converted as degrees, or 0.0 without a usable cell. *)
Definition degrees_channel (float_of_string : string → option R)
    (row : gmap string cell) (col : string) : R :=
  match row !! col with
  | Some c =>
      match py_float float_of_string c with
      | Ok value => (value * PI / 180)%R
      | Raise _ => 0%R
      end
  | None => 0%R
  end.

End Publisher.

(** ** The publisher's timer callback

    [publish_next_frame] with the part of the node's state it reads and
    writes.  The loaded table is a list of rows; the message stamp, the
    log lines and the statistics derived from the clock are left out.
    [float_of_string] and [int_of_string] are Python's parsers of [float]
    and [int] literals. *)

Module Node.

(** The fields of a [JointState] message the callback fills in. *)
Record joint_state : Type := JointState {
  frame_id : string;
  name : list string;
  position : list R;
  velocity : list R;
  effort : list R
}.

Record node : Type := Node {
  config : Publisher.publisher;
  data : list (gmap string Publisher.cell);
  frame_column : string;
  loop : bool;
  current_frame : Z;
  frames_published : Z;
  timer_cancelled : bool;
  published : list joint_state
}.

(** [self.total_frames = len(self.data)]. *)
Definition total_frames (n : node) : Z := Z.of_nat (length (data n)).

(** The end of [__init__]: the process exits when the table is empty. *)
Definition start (joint_prefix : string) (rows : list (gmap string Publisher.cell))
    (frame_column : string) (loop : bool) : option node :=
  match rows with
  | [] => None
  | _ => Some (Node (Publisher.init joint_prefix) rows frame_column loop 0 0 false [])
  end.

(** [data.iloc[i]]. *)
Definition iloc (rows : list (gmap string Publisher.cell)) (i : Z)
  : result (gmap string Publisher.cell) :=
  idx ← np_index (Z.of_nat (length rows)) i;
  match rows !! idx with
  | Some row => Ok row
  | None => Raise IndexError
  end.

(** [int(c)] on a cell. *)
Definition py_int_cell (int_of_string : string → option Z) (c : Publisher.cell)
  : result Z :=
  match c with
  | Publisher.CNum x => Ok (py_int x)
  | Publisher.CStr s =>
      match int_of_string s with
      | Some z => Ok z
      | None => Raise ValueError
      end
  | Publisher.CNone => Raise TypeError
  end.

Definition publish_next_frame (float_of_string : string → option R)
    (int_of_string : string → option Z) (n : node) : result node :=
  let restart :=
    if bool_decide (total_frames n ≤ current_frame n)
    then (if loop n then Some 0 else None)
    else Some (current_frame n) in
  match restart with
  | None =>
      Ok (Node (config n) (data n) (frame_column n) (loop n) (current_frame n)
               (frames_published n) true (published n))
  | Some current =>
      row ← iloc (data n) current;
      frame_number ←
        match row !! frame_column n with
        | Some c => py_int_cell int_of_string c
        | None => Ok current
        end;
      joint_values ← Publisher.get_joint_values_from_row float_of_string (config n) row;
      let msg :=
        JointState "base_link" (Publisher.joint_names (config n)) joint_values
                   (replicate (length joint_values) 0.0%R)
                   (replicate (length joint_values) 0.0%R) in
      Ok (Node (config n) (data n) (frame_column n) (loop n) (current + 1)
               (frames_published n + 1) (timer_cancelled n)
               (published n ++ [msg])%list)
  end.

(** One firing of the timer: a cancelled timer no longer calls back. *)
Definition tick (float_of_string : string → option R)
    (int_of_string : string → option Z) (n : node) : result node :=
  if timer_cancelled n then Ok n
  else publish_next_frame float_of_string int_of_string n.

Fixpoint ticks (float_of_string : string → option R)
    (int_of_string : string → option Z) (k : nat) (n : node) : result node :=
  match k with
  | O => Ok n
  | S k' =>
      n' ← tick float_of_string int_of_string n;
      ticks float_of_string int_of_string k' n'
  end.

(** The message a row gives rise to when nothing raises. *)
Definition message_of (float_of_string : string → option R) (joint_prefix : string)
    (row : gmap string Publisher.cell) : joint_state :=
  let columns := ["joint_1"; "joint_2"; "joint_3"; "joint_4"; "joint_5"; "joint_6";
                  "joint_7"; "Slider 22"; "Slider 23"] in
  JointState "base_link"
    ((λ column, joint_prefix +:+ column) <$> columns)
    (Publisher.degrees_channel float_of_string row <$> columns)
    (replicate 9 0.0%R) (replicate 9 0.0%R).

(** The frame cell of a row, when the row has one, is accepted by [int]. *)
Definition frame_cell_ok (int_of_string : string → option Z) (frame_column : string)
    (row : gmap string Publisher.cell) : Prop :=
  ∀ c, row !! frame_column = Some c → ∃ z, py_int_cell int_of_string c = Ok z.

End Node.

(** ** The Blender export script

    [blender_animate.py] reads poses from Blender and writes JSON and CSV
    files.  Embedded here: the frame range it walks and the three CSV
    tables it builds from [angles_data].  The pose of a frame (per bone, the
    Euler angles in degrees after [round(., 4)]) comes from Blender and is
    the parameter [pose]; a per-frame [dict] is an association list in
    insertion order. *)

Module Exporter.

Record euler : Type := Euler {
  x_deg : R;
  y_deg : R;
  z_deg : R
}.

(** [range(scene.frame_start, min(scene.frame_end + 1, 101))]. *)
Definition frame_range (frame_start frame_end : Z) : list Z :=
  seqZ frame_start (Z.min (frame_end + 1) 101 - frame_start).

Definition angles_data (pose : Z → list (string * euler)) (frame_start frame_end : Z)
  : list (Z * list (string * euler)) :=
  (λ frame, (frame, pose frame)) <$> frame_range frame_start frame_end.

(** [d[k]] guarded by [k in d], on an association list. *)
Definition lookup_bone (angles : list (string * euler)) (bone_name : string)
  : option euler :=
  (list_to_map angles : gmap string euler) !! bone_name.

(** [bone_name.replace(".", "_")]. *)
Fixpoint replace_dot (s : string) : string :=
  match s with
  | EmptyString => EmptyString
  | String c rest =>
      (if decide (String c "" = ".") then "_" else String c "") +:+ replace_dot rest
  end.

(** A CSV table: the header and the rows; [None] when no file is written. *)
Definition table : Type := list string * list (list R).

(** EXPORT 1: x, y and z of every bone, bone by bone. *)
Definition full_csv (data : list (Z * list (string * euler))) : option table :=
  match data with
  | [] => None
  | first :: _ =>
      let bone_names := first.2.*1 in
      let column_names :=
        "frame" :: (bone_names ≫= λ b, [b +:+ "_x"; b +:+ "_y"; b +:+ "_z"]) in
      let rows :=
        (λ frame_data : Z * list (string * euler),
           IZR frame_data.1 ::
           (bone_names ≫= λ b,
              match lookup_bone frame_data.2 b with
              | Some e => [x_deg e; y_deg e; z_deg e]
              | None => [0; 0; 0]%R
              end)) <$> data in
      Some (column_names, rows)
  end.

(** EXPORT 2: the z angle of every bone. *)
Definition z_only_csv (data : list (Z * list (string * euler))) : option table :=
  match data with
  | [] => None
  | first :: _ =>
      let bone_names := (λ b, (b, replace_dot b)) <$> first.2.*1 in
      let column_names := "frame" :: ((λ b, b.2 +:+ "_z") <$> bone_names) in
      let rows :=
        (λ frame_data : Z * list (string * euler),
           IZR frame_data.1 ::
           ((λ b : string * string,
               match lookup_bone frame_data.2 b.1 with
               | Some e => z_deg e
               | None => 0%R
               end) <$> bone_names)) <$> data in
      Some (column_names, rows)
  end.

Definition axis_deg (axis : string) (e : euler) : R :=
  if decide (axis = "x") then x_deg e
  else if decide (axis = "y") then y_deg e
  else z_deg e.

(** EXPORT 3: all x angles, then all y angles, then all z angles. *)
Definition separated_csv (data : list (Z * list (string * euler))) : option table :=
  match data with
  | [] => None
  | first :: _ =>
      let axes := ["x"; "y"; "z"] in
      let bone_names := first.2.*1 in
      let column_names :=
        "frame" ::
        (axes ≫= λ axis, (λ b, replace_dot b +:+ "_" +:+ axis) <$> bone_names) in
      let rows :=
        (λ frame_data : Z * list (string * euler),
           IZR frame_data.1 ::
           (axes ≫= λ axis,
              (λ b, match lookup_bone frame_data.2 b with
                    | Some e => axis_deg axis e
                    | None => 0%R
                    end) <$> bone_names)) <$> data in
      Some (column_names, rows)
  end.

(** Every row of a table has as many cells as the header has columns. *)
Definition rectangular (t : table) : Prop :=
  Forall (λ row, length row = length t.1) t.2.

End Exporter.

(** ** Well-formed animators

    What [__init__] establishes and the setters keep: every joint has an
    oscillation factor and a data column of [total_frames] cells. *)

Definition registry_ok (a : animator) : Prop :=
  ∀ joint, joint ∈ all_joints → is_Some (osc_factors a !! joint).

Definition data_ok (n : Z) (d : gmap string (list R)) : Prop :=
  ∀ joint, joint ∈ all_joints →
    ∃ col, d !! joint = Some col ∧ Z.of_nat (length col) = n.

Definition well_formed (a : animator) : Prop :=
  0 ≤ total_frames a ∧ registry_ok a ∧ data_ok (total_frames a) (data a).

(** Every keyframe of the store lies on a frame of the trajectory. *)
Definition keyframes_in_range (a : animator) : Prop :=
  ∀ k, is_Some (keyframes a !! k) → 0 ≤ k < total_frames a.

(** Cell [(joint, frame)] of a data table holds [v]. *)
Definition cell_is (d : gmap string (list R)) (joint : string) (frame : Z) (v : R) : Prop :=
  ∃ col, d !! joint = Some col ∧ col !! Z.to_nat frame = Some v.

(** ** Formulas as the specification words them

    These follow the specification's text, not the source; they are what the
    embedded code is compared with. *)

(** Section 4.2: [t], defined as 0 on a single-frame segment, then the
    cosine ease and the base value. *)
Definition spec_base_value (start_frame end_frame frame : Z)
    (start_val end_val : R) : R :=
  let t := if decide (start_frame = end_frame) then 0%R
           else (IZR (frame - start_frame) / IZR (end_frame - start_frame))%R in
  let ease_t := ((1 - cos (t * PI)) / 2)%R in
  (start_val + (end_val - start_val) * ease_t)%R.

(** Section 4.1: the default of an omitted joint, 0 for a rotational joint
    and the registry default for a slider. *)
Definition spec_omitted_default (joint : string) : R :=
  if decide (joint = "Slider 22") then (-0.022)%R
  else if decide (joint = "Slider 23") then 0.022%R
  else 0%R.

(** Section 4.3: a frame is in a precision zone when some keyframe is at a
    distance strictly below the radius. *)
Definition spec_in_precision_zone (keyframe_frames : list Z) (frame : Z) : Prop :=
  ∃ k, k ∈ keyframe_frames ∧ Z.abs (frame - k) < 10.

(** Section 4.7: the window size, with Python's [round] (half to even). *)
Definition py_round (x : R) : Z :=
  let fl := Int_part x in
  let fr := frac_part x in
  if decide (fr < 1 / 2)%R then fl
  else if decide (1 / 2 < fr)%R then fl + 1
  else if Z.even fl then fl else fl + 1.

Definition spec_smoothing_window (factor : R) : Z := Z.max 3 (py_round (factor * 5)).

(** ** Speed-adaptive damping

    The damping factor of lines 188-194, named so that it can be stated
    apart from [oscillation_term], which computes it in place. *)

Definition speed_factor (start_frame end_frame : Z) (start_val end_val : R) : R :=
  let movement_distance := Rabs (end_val - start_val) in
  let segment_length := Z.max 1 (end_frame - start_frame) in
  let speed := (movement_distance / IZR segment_length)%R in
  Rmax 0.1 (1.0 - speed * 0.1).

(** What a setter call must leave alone: the keyframes, the arrays, the
    frame count and the set of joints the registry knows. *)
Definition same_joints_and_frames (a a' : animator) : Prop :=
  keyframes a' = keyframes a ∧ data a' = data a ∧
  total_frames a' = total_frames a ∧
  dom (osc_factors a') = dom (osc_factors a) ∧
  dom (osc_params a') = dom (osc_params a).

(** ** Inputs used in the examples below *)


(** Keyframes at the first and the last frame of a 400-frame animation. *)
Definition two_keyframes : animator :=
  add_keyframe (add_keyframe (init 400 1) 0 {[ "joint_1" := 5%R ]})
               399 {[ "joint_1" := 7%R ]}.

(** Three frames, each a keyframe: joint_1 goes 0, 30, 0. *)
Definition three_frames : animator :=
  add_keyframe
    (add_keyframe
       (add_keyframe (init 3 1) 0 {[ "joint_1" := 0%R ]})
       1 {[ "joint_1" := 30%R ]})
    2 {[ "joint_1" := 0%R ]}.

(** The keyframe set of the specification's exactness test (section 8). *)
Definition spec_exactness_test : animator :=
  add_keyframe
    (add_keyframe
       (add_keyframe (init 100 1) 0 {[ "joint_1" := 0%R ]})
       50 {[ "joint_1" := 30%R ]})
    99 {[ "joint_1" := 0%R ]}.

(** joint_1 is set at frame 0, left out at frame 100 and set again at 399. *)
Definition hold_then_omit : animator :=
  add_keyframe
    (add_keyframe
       (add_keyframe (init 400 1) 0 {[ "joint_1" := 5%R ]})
       100 {[ "joint_2" := 1%R ]})
    399 {[ "joint_1" := 0%R ]}.

(** A table of two rows; the second has a joint cell that is not a number. *)
Definition two_rows : list (gmap string Publisher.cell) :=
  [ {[ "frame" := Publisher.CNum 0; "joint_1" := Publisher.CNum 90 ]};
    {[ "frame" := Publisher.CNum 1; "joint_1" := Publisher.CStr "n/a" ]} ].

(** * Properties *)

(** ** Generic facts on the error monad and on sorted key lists *)

Lemma bind_Ok {A B} (m : result A) (f : A → result B) (b : B) :
  m ≫= f = Ok b ↔ ∃ a, m = Ok a ∧ f a = Ok b.
Proof.
  destruct m as [a|e]; simpl; split.
  - intros Hf. exists a. done.
  - intros (a' & [= <-] & Hf). done.
  - intros [=].
  - intros (a' & [=] & _).
Qed.

Lemma getitem_Some {K} `{Countable K} {V} (d : gmap K V) (k : K) (v : V) :
  d !! k = Some v → getitem d k = Ok v.
Proof. intros Hk. unfold getitem. by rewrite Hk. Qed.

Lemma getitem_None {K} `{Countable K} {V} (d : gmap K V) (k : K) :
  d !! k = None → getitem d k = Raise KeyError.
Proof. intros Hk. unfold getitem. by rewrite Hk. Qed.

Section sorted_keys.
Context {V : Type}.
Implicit Types d : gmap Z V.

Lemma sorted_keys_perm d : sorted_keys d ≡ₚ (map_to_list d).*1.
Proof. apply merge_sort_Permutation. Qed.

Lemma elem_of_sorted_keys d k : k ∈ sorted_keys d ↔ is_Some (d !! k).
Proof.
  rewrite sorted_keys_perm, list_elem_of_fmap. split.
  - intros ([k' v] & -> & Hin). apply elem_of_map_to_list in Hin. eauto.
  - intros [v Hv]. exists (k, v). split; [done|]. by apply elem_of_map_to_list.
Qed.

Lemma sorted_keys_NoDup d : NoDup (sorted_keys d).
Proof. rewrite sorted_keys_perm. apply NoDup_fst_map_to_list. Qed.

Lemma sorted_keys_le d : Sorted Z.le (sorted_keys d).
Proof. apply (Sorted_merge_sort Z.le). Qed.

Lemma sorted_keys_lt d : StronglySorted Z.lt (sorted_keys d).
Proof.
  pose proof (sorted_keys_NoDup d) as Hnd.
  pose proof (Sorted_StronglySorted Z.le _ (sorted_keys_le d)) as Hs.
  induction Hs as [|x l Hl IH Hx]; [constructor|].
  apply NoDup_cons in Hnd as [Hnx Hnd].
  constructor; [by apply IH|].
  rewrite Forall_forall in Hx |- *. intros y Hy.
  specialize (Hx y Hy). assert (x ≠ y) by (intros ->; done). lia.
Qed.

Lemma sorted_keys_nil d : sorted_keys d = [] ↔ d = ∅.
Proof.
  split.
  - intros Hnil. apply map_empty. intros k.
    destruct (d !! k) as [v|] eqn:Hk; [|done].
    assert (k ∈ sorted_keys d) as Hin by (apply elem_of_sorted_keys; eauto).
    rewrite Hnil in Hin. by apply elem_of_nil in Hin.
  - intros ->. apply Permutation_nil_r. rewrite sorted_keys_perm.
    by rewrite map_to_list_empty.
Qed.

(** A strictly increasing list with the keys of [d] is [sorted_keys d]. *)
Lemma sorted_keys_unique d (l : list Z) :
  StronglySorted Z.lt l → (∀ k, k ∈ l ↔ is_Some (d !! k)) → sorted_keys d = l.
Proof.
  intros Hl Hdom.
  assert (NoDup l) as Hnd.
  { clear Hdom. induction Hl as [|x l Hl IH Hx]; [constructor|].
    constructor; [|done].
    intros Hin. rewrite Forall_forall in Hx. specialize (Hx x Hin). lia. }
  apply (Sorted_unique Z.le).
  - apply sorted_keys_le.
  - apply StronglySorted_Sorted. clear Hdom Hnd.
    induction Hl as [|x l Hl IH Hx]; constructor; [done|].
    eapply Forall_impl; [exact Hx|]. intros y Hy; simpl in *; lia.
  - apply NoDup_Permutation; [apply sorted_keys_NoDup|done|].
    intros k. by rewrite elem_of_sorted_keys, Hdom.
Qed.
End sorted_keys.

(** After [_create_default_movement] has added its keyframes the store is
    not empty, so the [generate_movement] it calls runs the body. *)
Lemma default_keyframes_nonempty (a : animator) :
  generate_movement (default_keyframes a) = generate_with_keyframes (default_keyframes a).
Proof.
  unfold generate_movement. rewrite decide_False; [done|].
  rewrite sorted_keys_nil. apply insert_non_empty.
Qed.

Lemma create_default_movement_unfold (a : animator) :
  _create_default_movement a = generate_movement (default_keyframes a).
Proof. by rewrite default_keyframes_nonempty. Qed.

(** ** Boundary normalisation *)

Lemma normalize_Ok (tf : Z) (kf : gmap Z (gmap string R)) :
  ∃ kf', normalize tf kf = Ok kf'.
Proof.
  unfold normalize.
  set (kf1 := if decide (kf !! 0 = None) then <[0 := home_pose]> kf else kf).
  assert (is_Some (kf1 !! 0)) as [first Hfirst].
  { unfold kf1. case_decide as H0.
    - rewrite lookup_insert_eq. eauto.
    - by apply not_eq_None_Some. }
  case_decide; [|eauto].
  rewrite (getitem_Some _ _ _ Hfirst). simpl. eauto.
Qed.

Lemma normalize_spec (tf : Z) (kf kf' : gmap Z (gmap string R)) :
  normalize tf kf = Ok kf' →
  is_Some (kf' !! 0) ∧ is_Some (kf' !! (tf - 1)) ∧
  (kf !! 0 = None → kf' !! 0 = Some home_pose) ∧
  (kf !! (tf - 1) = None → kf' !! (tf - 1) = kf' !! 0) ∧
  (∀ f v, kf !! f = Some v → kf' !! f = Some v) ∧
  (∀ f, f ≠ 0 → f ≠ tf - 1 → kf' !! f = kf !! f).
Proof.
  unfold normalize.
  set (kf1 := if decide (kf !! 0 = None) then <[0 := home_pose]> kf else kf).
  assert (is_Some (kf1 !! 0)) as [first Hfirst].
  { unfold kf1. case_decide as H0.
    - rewrite lookup_insert_eq. eauto.
    - by apply not_eq_None_Some. }
  assert (kf !! 0 = None → kf1 !! 0 = Some home_pose) as Hhome.
  { intros H0. unfold kf1. rewrite decide_True by done. apply lookup_insert_eq. }
  assert (∀ f v, kf !! f = Some v → kf1 !! f = Some v) as Hkeep.
  { intros f v Hf. unfold kf1. case_decide as H0; [|done].
    rewrite lookup_insert_ne; [done|]. intros <-. congruence. }
  assert (∀ f, f ≠ 0 → kf1 !! f = kf !! f) as Hother.
  { intros f Hf. unfold kf1. case_decide; [|done]. by rewrite lookup_insert_ne. }
  case_decide as Hlast.
  - rewrite (getitem_Some _ _ _ Hfirst). simpl. intros [= <-].
    assert (tf - 1 ≠ 0) as Hne by (intros Heq; rewrite Heq in Hlast; congruence).
    rewrite lookup_insert_eq, lookup_insert_ne by done.
    split_and!; [eauto|eauto|by auto|congruence| |].
    + intros f v Hf. rewrite lookup_insert_ne; [by apply Hkeep|].
      intros Heq. subst f. apply Hkeep in Hf. congruence.
    + intros f Hf0 Hfl. rewrite lookup_insert_ne by done. by apply Hother.
  - intros [= <-]. split_and!; [eauto| |by auto| |by auto|by auto].
    + by apply not_eq_None_Some.
    + intros Hnone. destruct (decide (tf - 1 = 0)) as [->|Hne]; [done|].
      rewrite Hother in Hlast by done. done.
Qed.

Lemma normalize_present (tf : Z) (kf : gmap Z (gmap string R)) :
  is_Some (kf !! 0) → is_Some (kf !! (tf - 1)) → normalize tf kf = Ok kf.
Proof.
  intros [v0 H0] [vl Hl]. unfold normalize.
  destruct (decide (kf !! 0 = None)) as [Habs|_]; [congruence|].
  rewrite decide_False by congruence. done.
Qed.



(** ** Setters *)

Lemma Rmax_0_nonneg (x : R) : (0 <= Rmax 0.0 x)%R.
Proof. replace 0.0%R with 0%R by lra. apply Rmax_l. Qed.

Lemma Rmax_0_of_neg (x : R) : (x < 0)%R → Rmax 0.0 x = 0%R.
Proof. intros Hx. replace 0.0%R with 0%R by lra. apply Rmax_left. lra. Qed.

(** C7 as stated fails: a negative amplitude is stored as it is, and the
    amplitude and frequency setters print nothing for an unknown joint. *)
Lemma setter_policy_counterexample :
  ¬ (∀ (a : animator) (joint_name : string) (amplitude : R) (p : osc_param),
       (set_oscillation_amplitude a joint_name amplitude).1.(osc_params) !! joint_name
         = Some p →
       (0 <= base_amp p)%R) ∧
  (set_oscillation_amplitude (init 400 1) "joint_9" 1).2 = [] ∧
  (set_oscillation_frequency (init 400 1) "joint_9" 1).2 = [].
Proof.
  split; [|done].
  intros Hclamp.
  specialize (Hclamp (init 400 1) "joint_1" (-1)%R (OscParam 0.08 (-1) 0) eq_refl).
  simpl in Hclamp. lra.
Qed.

(** C7 (amended). No setter fails.  The three factor setters store
    [max(0.0, factor)], which is never negative; the amplitude and frequency
    setters store the supplied number unchanged for a known joint; a setter
    given an unknown joint name leaves the animator as it was, and only
    [set_joint_oscillation_factor] prints a warning for it. *)
Theorem setter_policy (a : animator) (joint_name : string) (x : R) :
  (* set_global_oscillation_factor *)
  (global_osc_factor (set_global_oscillation_factor a x).1 = Rmax 0.0 x ∧
   (0 <= global_osc_factor (set_global_oscillation_factor a x).1)%R ∧
   osc_factors (set_global_oscillation_factor a x).1 = osc_factors a ∧
   osc_params (set_global_oscillation_factor a x).1 = osc_params a) ∧
  (* set_joint_oscillation_factor *)
  (is_Some (osc_factors a !! joint_name) →
     osc_factors (set_joint_oscillation_factor a joint_name x).1
       = <[joint_name := Rmax 0.0 x]> (osc_factors a) ∧
     (set_joint_oscillation_factor a joint_name x).2 = [JointFactorSet joint_name x]) ∧
  (osc_factors a !! joint_name = None →
     set_joint_oscillation_factor a joint_name x = (a, [JointNotFound joint_name])) ∧
  (* set_all_joints_oscillation *)
  (∀ j, osc_factors (set_all_joints_oscillation a x).1 !! j
          = (λ _, Rmax 0.0 x) <$> (osc_factors a !! j)) ∧
  (∀ j f, osc_factors (set_all_joints_oscillation a x).1 !! j = Some f → (0 <= f)%R) ∧
  (* set_oscillation_amplitude *)
  (∀ p, osc_params a !! joint_name = Some p →
     osc_params (set_oscillation_amplitude a joint_name x).1
       = <[joint_name := OscParam (freq p) x (phase p)]> (osc_params a)) ∧
  (osc_params a !! joint_name = None →
     set_oscillation_amplitude a joint_name x = (a, [])) ∧
  (* set_oscillation_frequency *)
  (∀ p, osc_params a !! joint_name = Some p →
     osc_params (set_oscillation_frequency a joint_name x).1
       = <[joint_name := OscParam x (base_amp p) (phase p)]> (osc_params a)) ∧
  (osc_params a !! joint_name = None →
     set_oscillation_frequency a joint_name x = (a, [])).
Proof.
  split_and!.
  - done.
  - apply Rmax_0_nonneg.
  - done.
  - done.
  - intros [f Hf]. unfold set_joint_oscillation_factor. by rewrite Hf.
  - intros Hf. unfold set_joint_oscillation_factor. by rewrite Hf.
  - intros j. simpl. by rewrite lookup_fmap.
  - intros j f. simpl. rewrite lookup_fmap.
    destruct (osc_factors a !! j); simpl; [|done].
    intros [= <-]. apply Rmax_0_nonneg.
  - intros p Hp. unfold set_oscillation_amplitude. by rewrite Hp.
  - intros Hp. unfold set_oscillation_amplitude. by rewrite Hp.
  - intros p Hp. unfold set_oscillation_frequency. by rewrite Hp.
  - intros Hp. unfold set_oscillation_frequency. by rewrite Hp.
Qed.

Lemma setter_policy_witness :
  (set_joint_oscillation_factor (init 400 1) "joint_9" (-1)).1 = init 400 1 ∧
  osc_factors (set_joint_oscillation_factor (init 400 1) "joint_3" (-1)).1 !! "joint_3"
    = Some 0%R.
Proof.
  destruct (setter_policy (init 400 1) "joint_9" (-1)) as (_ & _ & Hunknown & _).
  destruct (setter_policy (init 400 1) "joint_3" (-1)) as (_ & Hknown & _).
  split.
  - rewrite Hunknown; done.
  - destruct Hknown as [-> _]; [simpl; eauto|].
    rewrite lookup_insert_eq. f_equal. apply Rmax_0_of_neg. lra.
Defined.

(** ** The value of one cell *)

Lemma segment_t_degenerate (s f : Z) : segment_t s s f = 0%R.
Proof. unfold segment_t. by rewrite decide_False by auto. Qed.

Lemma segment_t_start (s e : Z) : segment_t s e s = 0%R.
Proof.
  unfold segment_t. case_decide as Hne; [|done].
  rewrite Z.sub_diag. unfold Rdiv. apply Rmult_0_l.
Qed.

Lemma segment_t_end (s e : Z) : s ≠ e → segment_t s e e = 1%R.
Proof.
  intros Hne. unfold segment_t. rewrite decide_True by done.
  apply Rdiv_diag. apply not_0_IZR. lia.
Qed.

Lemma ease_0 : ease 0 = 0%R.
Proof. unfold ease. rewrite Rmult_0_l, cos_0. lra. Qed.

Lemma ease_1 : ease 1 = 1%R.
Proof. unfold ease. rewrite Rmult_1_l, cos_PI. lra. Qed.

Lemma base_value_start (sv ev : R) : base_value sv ev 0 = sv.
Proof. unfold base_value. lra. Qed.

Lemma base_value_end (sv ev : R) : base_value sv ev 1 = ev.
Proof. unfold base_value. lra. Qed.

Lemma base_value_hold (sv ease_t : R) : base_value sv sv ease_t = sv.
Proof. unfold base_value. lra. Qed.

Lemma base_value_spec (s e f : Z) (sv ev : R) :
  base_value sv ev (ease (segment_t s e f)) = spec_base_value s e f sv ev.
Proof.
  unfold base_value, ease, segment_t, spec_base_value.
  destruct (decide (s = e)) as [->|Hne].
  - by rewrite decide_False by auto.
  - by rewrite decide_True by done.
Qed.

(** C6. The value a segment pass writes is the oscillation term added to the
    eased base value of section 4.2, with [t] taken as 0 on a single-frame
    segment; on such a segment the base value is [start_value], and no
    division is attempted. *)
Theorem eased_base_value (a : animator) (sorted_frames : list Z)
    (start_frame end_frame frame : Z) (joint : string) (start_val end_val : R) :
  start_value a start_frame joint = Ok start_val →
  end_value a end_frame joint start_val = Ok end_val →
  cell_value a sorted_frames start_frame end_frame frame joint =
    (oscillation ← oscillation_term a sorted_frames start_frame end_frame frame
                                    joint start_val end_val;
     Ok (spec_base_value start_frame end_frame frame start_val end_val
         + oscillation)%R) ∧
  (start_frame = end_frame →
     segment_t start_frame end_frame frame = 0%R ∧
     spec_base_value start_frame end_frame frame start_val end_val = start_val).
Proof.
  intros Hs He. split.
  - unfold cell_value. rewrite Hs. simpl. rewrite He. simpl.
    by rewrite base_value_spec.
  - intros <-. split; [apply segment_t_degenerate|].
    rewrite <- base_value_spec, segment_t_degenerate, ease_0.
    apply base_value_start.
Qed.

Lemma eased_base_value_witness :
  spec_base_value 0 0 0 5 5 = 5%R.
Proof.
  apply (eased_base_value two_keyframes [0; 399] 0 0 0 "joint_1" 5 5);
    reflexivity.
Defined.

(** ** Joints missing from a keyframe *)

(** C5 as stated fails for the sliders: a slider omitted from the start
    keyframe is read as 0, not as its registry default. *)
Lemma missing_joint_counterexample :
  ¬ (∀ (a : animator) (start_frame : Z) (kstart : gmap string R) (joint : string),
       keyframes a !! start_frame = Some kstart →
       joint ∈ all_joints →
       kstart !! joint = None →
       start_value a start_frame joint = Ok (spec_omitted_default joint)).
Proof.
  intros Hdefault.
  specialize (Hdefault two_keyframes 0 {[ "joint_1" := 5%R ]} "Slider 22" eq_refl).
  assert (start_value two_keyframes 0 "Slider 22" = Ok 0%R) as Hcode by reflexivity.
  rewrite Hcode in Hdefault.
  assert (Ok 0%R = Ok (-0.022)%R) as [= Habs]; [|lra].
  apply Hdefault; [|done].
  unfold all_joints, rotational_joints, slider_joints. set_solver.
Qed.

(** C5 (amended). A joint absent from the end keyframe's mapping has its
    start value as end value, so its base value is the start value at every
    frame of the segment; a joint omitted from the mapping consulted as
    segment start is read as 0, for rotational joints and sliders alike. *)
Theorem missing_joint_values (a : animator) (sorted_frames : list Z)
    (start_frame end_frame frame : Z) (kstart kend : gmap string R) (joint : string) :
  keyframes a !! start_frame = Some kstart →
  keyframes a !! end_frame = Some kend →
  (kend !! joint = None →
     ∀ start_val,
       end_value a end_frame joint start_val = Ok start_val ∧
       base_value start_val start_val (ease (segment_t start_frame end_frame frame))
         = start_val) ∧
  (kend !! joint = None →
     cell_value a sorted_frames start_frame end_frame frame joint =
       (oscillation ← oscillation_term a sorted_frames start_frame end_frame frame
                         joint (dict_get kstart joint 0) (dict_get kstart joint 0);
        Ok (dict_get kstart joint 0 + oscillation)%R)) ∧
  (kstart !! joint = None → start_value a start_frame joint = Ok 0%R).
Proof.
  intros Hs He. split_and!.
  - intros Hj sv. split; [|apply base_value_hold].
    unfold end_value. rewrite (getitem_Some _ _ _ He). simpl.
    unfold dict_get. by rewrite Hj.
  - intros Hj. unfold cell_value, start_value, end_value.
    rewrite (getitem_Some _ _ _ Hs), (getitem_Some _ _ _ He). simpl.
    unfold dict_get at 2 3 5. rewrite Hj. simpl.
    by rewrite base_value_hold.
  - intros Hj. unfold start_value. rewrite (getitem_Some _ _ _ Hs). simpl.
    unfold dict_get. by rewrite Hj.
Qed.

Lemma missing_joint_values_witness :
  end_value two_keyframes 399 "Slider 22" 4 = Ok 4%R ∧
  start_value two_keyframes 0 "Slider 22" = Ok 0%R.
Proof.
  destruct (missing_joint_values two_keyframes [0; 399] 0 399 17
              {[ "joint_1" := 5%R ]} {[ "joint_1" := 7%R ]} "Slider 22"
              eq_refl eq_refl) as (Hend & _ & Hstart).
  split.
  - apply Hend. reflexivity.
  - apply Hstart. reflexivity.
Defined.

(** ** Oscillation gating *)

Lemma is_precision_zone_spec (sorted_frames : list Z) (frame : Z) :
  is_precision_zone sorted_frames frame = true ↔
  spec_in_precision_zone sorted_frames frame.
Proof.
  unfold is_precision_zone, spec_in_precision_zone, precision_frames.
  rewrite existsb_exists. split.
  - intros (k & Hin & Hk). apply bool_decide_eq_true in Hk.
    exists k. by rewrite list_elem_of_In.
  - intros (k & Hin & Hk). exists k. rewrite <- list_elem_of_In.
    split; [done|]. by apply bool_decide_eq_true.
Qed.

Lemma precision_zone_at_keyframe (sorted_frames : list Z) (k : Z) :
  k ∈ sorted_frames → is_precision_zone sorted_frames k = true.
Proof.
  intros Hk. apply is_precision_zone_spec. exists k. split; [done|].
  rewrite Z.sub_diag. simpl. lia.
Qed.

(** C2. The oscillation added to a cell is exactly 0 (a) at a frame whose
    distance to some keyframe frame is below 10, (b) for a joint whose
    oscillation factor is 0, and (c) for a registered slider whose segment
    movement [|end_value - start_value|] is below 0.001; and
    [get_oscillation] returns 0 for a joint name outside the registry.  The
    global factor and the other factors play no part. *)
Theorem oscillation_zeroing (a : animator) (sorted_frames : list Z)
    (start_frame end_frame frame : Z) (joint : string) (start_val end_val : R) :
  (spec_in_precision_zone sorted_frames frame →
     oscillation_term a sorted_frames start_frame end_frame frame joint
                      start_val end_val = Ok 0%R) ∧
  (osc_factors a !! joint = Some 0%R →
     oscillation_term a sorted_frames start_frame end_frame frame joint
                      start_val end_val = Ok 0%R) ∧
  (joint ∈ slider_joints → is_Some (osc_factors a !! joint) →
   (Rabs (end_val - start_val) < 0.001)%R →
     oscillation_term a sorted_frames start_frame end_frame frame joint
                      start_val end_val = Ok 0%R) ∧
  (osc_params a !! joint = None →
     ∀ speed_factor, get_oscillation a joint frame speed_factor = 0%R).
Proof.
  split_and!.
  - intros Hzone. apply is_precision_zone_spec in Hzone.
    unfold oscillation_term. by rewrite Hzone.
  - intros Hfactor. unfold oscillation_term.
    destruct (is_precision_zone sorted_frames frame); [done|].
    rewrite (getitem_Some _ _ _ Hfactor). simpl.
    rewrite decide_False; [done|]. lra.
  - intros Hslider [factor Hfactor] Hstill. unfold oscillation_term.
    destruct (is_precision_zone sorted_frames frame); [done|].
    rewrite (getitem_Some _ _ _ Hfactor). simpl.
    case_decide; [|done].
    unfold is_slider. rewrite bool_decide_eq_true_2 by done.
    rewrite bool_decide_eq_true_2 by done. done.
  - intros Hparams speed_factor. unfold get_oscillation. by rewrite Hparams.
Qed.

Lemma oscillation_zeroing_witness :
  oscillation_term (init 400 1) [0; 399] 0 399 5 "joint_1" 0 30 = Ok 0%R ∧
  oscillation_term (init 400 1) [0; 399] 0 399 200 "Slider 22" 0 0 = Ok 0%R ∧
  get_oscillation (init 400 1) "joint_9" 200 1 = 0%R.
Proof.
  destruct (oscillation_zeroing (init 400 1) [0; 399] 0 399 5 "joint_1" 0 30)
    as (Hzone & _).
  destruct (oscillation_zeroing (init 400 1) [0; 399] 0 399 200 "Slider 22" 0 0)
    as (_ & _ & Hslider & _).
  destruct (oscillation_zeroing (init 400 1) [0; 399] 0 399 200 "joint_9" 0 0)
    as (_ & _ & _ & Hunknown).
  split_and!.
  - apply Hzone. exists 0. split; [set_solver|]. simpl. lia.
  - apply Hslider.
    + unfold slider_joints. set_solver.
    + simpl. eauto.
    + rewrite Rminus_diag, Rabs_R0. lra.
  - apply Hunknown. reflexivity.
Defined.

(** ** Loops *)

Section for_each.
Context {A S : Type} (step : A → S → result S).

(** Every step keeps invariant [I] and never loses [P]; the steps that
    [touch] establish [P]. *)
Lemma for_each_touch (I P : S → Prop) (touch : A → Prop) (l : list A) :
  (∀ x s, x ∈ l → I s →
     ∃ s', step x s = Ok s' ∧ I s' ∧ (P s → P s') ∧ (touch x → P s')) →
  ∀ s, I s →
    ∃ s', for_each step l s = Ok s' ∧ I s' ∧ (P s → P s') ∧
          ((∃ x, x ∈ l ∧ touch x) → P s').
Proof.
  induction l as [|x l IH]; intros Hstep s HI; simpl.
  - exists s. split_and!; [done..|]. intros (x & Hx & _). by apply elem_of_nil in Hx.
  - destruct (Hstep x s) as (s1 & -> & HI1 & HP1 & Ht1); [left|done|]. simpl.
    destruct (IH (λ y t Hy, Hstep y t (list_elem_of_further _ _ _ Hy)) s1 HI1)
      as (s2 & Hrun & HI2 & HP2 & Ht2).
    exists s2. split_and!; [done|done|by auto|].
    intros (y & Hy & Hty). apply elem_of_cons in Hy as [->|Hy]; [by auto|].
    apply Ht2. eauto.
Qed.

(** Every step either keeps invariant [I] or raises [e]; one step always
    raises [e]. *)
Lemma for_each_raise (I : S → Prop) (e : exn) (l : list A) :
  (∀ x s, x ∈ l → I s → (∃ s', step x s = Ok s' ∧ I s') ∨ step x s = Raise e) →
  (∃ x, x ∈ l ∧ ∀ s, I s → step x s = Raise e) →
  ∀ s, I s → for_each step l s = Raise e.
Proof.
  induction l as [|x l IH]; intros Hstep (y & Hy & Hraise) s HI; simpl.
  - by apply elem_of_nil in Hy.
  - destruct (Hstep x s) as [(s1 & Hs1 & HI1)| ->]; [left|done| |done].
    rewrite Hs1. simpl.
    apply elem_of_cons in Hy as [->|Hy].
    + rewrite Hraise in Hs1 by done. discriminate.
    + apply IH; [|eauto|done]. intros z t Hz. apply Hstep. by right.
Qed.

Lemma for_each_ok_or_raise (I : S → Prop) (e : exn) (l : list A) :
  (∀ x s, x ∈ l → I s → (∃ s', step x s = Ok s' ∧ I s') ∨ step x s = Raise e) →
  ∀ s, I s → (∃ s', for_each step l s = Ok s' ∧ I s') ∨ for_each step l s = Raise e.
Proof.
  induction l as [|x l IH]; intros Hstep s HI; simpl; [by eauto|].
  destruct (Hstep x s) as [(s1 & -> & HI1)| ->]; [left|done| |by right]. simpl.
  apply IH; [|done]. intros z t Hz. apply Hstep. by right.
Qed.
End for_each.

(** ** Consecutive pairs of a strictly increasing list *)

Lemma segments_cons (x y : Z) (l : list Z) :
  segments (x :: y :: l) = (x, y) :: segments (y :: l).
Proof. done. Qed.

Lemma segments_spec (l : list Z) (s e : Z) :
  StronglySorted Z.lt l → (s, e) ∈ segments l →
  s ∈ l ∧ e ∈ l ∧ s < e ∧ ∀ k, k ∈ l → s ≤ k ≤ e → k = s ∨ k = e.
Proof.
  induction 1 as [|x l Hl IH Hx]; [intros Hin; by apply elem_of_nil in Hin|].
  destruct l as [|y l]; [intros Hin; by apply elem_of_nil in Hin|].
  rewrite segments_cons, elem_of_cons. intros [[= -> ->]|Hin].
  - apply Forall_cons in Hx as [Hxy Hx].
    apply StronglySorted_inv in Hl as [_ Hy].
    rewrite Forall_forall in Hx, Hy.
    split_and!; [by left|by right; left|done|].
    intros k Hk Hrange. rewrite !elem_of_cons in Hk.
    destruct Hk as [->|[->|Hk]]; [by left|by right|].
    specialize (Hy k Hk). lia.
  - destruct (IH Hin) as (Hs & He & Hlt & Hmid).
    rewrite Forall_forall in Hx.
    split_and!; [by right|by right|done|].
    intros k Hk Hrange. apply elem_of_cons in Hk as [->|Hk]; [|by auto].
    specialize (Hx s Hs). lia.
Qed.

Lemma segments_cover (l : list Z) (k : Z) :
  (2 ≤ length l)%nat → k ∈ l → ∃ seg, seg ∈ segments l ∧ (k = seg.1 ∨ k = seg.2).
Proof.
  induction l as [|x l IH]; simpl; [lia|].
  destruct l as [|y l]; simpl in *; [lia|]. intros _ Hk.
  rewrite segments_cons.
  apply elem_of_cons in Hk as [->|Hk].
  - exists (x, y). split; [left|by left].
  - destruct l as [|z l].
    + apply list_elem_of_singleton in Hk as ->. exists (x, y). split; [left|by right].
    + destruct IH as (seg & Hseg & Hor); [simpl; lia|done|].
      exists seg. split; [by right|done].
Qed.

(** ** Well-formedness *)

Lemma elem_of_all_joints (joint : string) :
  joint ∈ all_joints ↔
  joint = "joint_1" ∨ joint = "joint_2" ∨ joint = "joint_3" ∨ joint = "joint_4" ∨
  joint = "joint_5" ∨ joint = "joint_6" ∨ joint = "joint_7" ∨
  joint = "Slider 22" ∨ joint = "Slider 23".
Proof.
  unfold all_joints, rotational_joints, slider_joints. simpl.
  rewrite !elem_of_cons, elem_of_nil. tauto.
Qed.

Lemma length_np_full (n : Z) (v : R) : 0 ≤ n → Z.of_nat (length (np_full n v)) = n.
Proof. intros Hn. unfold np_full. rewrite length_replicate. lia. Qed.

Lemma init_well_formed (n : Z) (g : R) : 0 ≤ n → well_formed (init n g).
Proof.
  intros Hn. split_and!; [done| |].
  - intros joint Hj. apply elem_of_all_joints in Hj.
    repeat (destruct Hj as [->|Hj]; [simpl; eauto|]). subst. simpl; eauto.
  - intros joint Hj. apply elem_of_all_joints in Hj.
    repeat (destruct Hj as [->|Hj];
            [eexists; split; [reflexivity|by apply length_np_full]|]).
    subst. eexists; split; [reflexivity|by apply length_np_full].
Qed.

Lemma add_keyframe_well_formed (a : animator) (frame : Z) (joints : gmap string R) :
  well_formed a → well_formed (add_keyframe a frame joints).
Proof. done. Qed.

Lemma set_joint_oscillation_factor_well_formed (a : animator) (joint : string) (x : R) :
  well_formed a → well_formed (set_joint_oscillation_factor a joint x).1.
Proof.
  intros (Hn & Hreg & Hdata). unfold set_joint_oscillation_factor.
  destruct (osc_factors a !! joint) eqn:Hj; [|done].
  split_and!; [done| |done]. intros j' Hj'. simpl.
  destruct (decide (joint = j')) as [->|Hne].
  - rewrite lookup_insert_eq. eauto.
  - rewrite lookup_insert_ne by done. by apply Hreg.
Qed.

Lemma set_all_joints_oscillation_well_formed (a : animator) (x : R) :
  well_formed a → well_formed (set_all_joints_oscillation a x).1.
Proof.
  intros (Hn & Hreg & Hdata). split_and!; [done| |done].
  intros j Hj. simpl. rewrite lookup_fmap.
  destruct (Hreg j Hj) as [f ->]. simpl. eauto.
Qed.

(** ** Values written at keyframe frames *)

Lemma oscillation_term_Ok (a : animator) (K : list Z) (s e f : Z) (joint : string)
    (sv ev : R) :
  is_Some (osc_factors a !! joint) →
  ∃ osc, oscillation_term a K s e f joint sv ev = Ok osc.
Proof.
  intros [factor Hfactor]. unfold oscillation_term.
  destruct (is_precision_zone K f); [by eauto|].
  rewrite (getitem_Some _ _ _ Hfactor). simpl.
  case_decide; [|by eauto].
  destruct (is_slider joint && _); eauto.
Qed.

Lemma cell_value_Ok (a : animator) (K : list Z) (s e f : Z) (joint : string) :
  is_Some (keyframes a !! s) → is_Some (keyframes a !! e) →
  is_Some (osc_factors a !! joint) →
  ∃ v, cell_value a K s e f joint = Ok v.
Proof.
  intros [ks Hs] [ke He] Hfactor. unfold cell_value, start_value, end_value.
  rewrite (getitem_Some _ _ _ Hs), (getitem_Some _ _ _ He). simpl.
  edestruct oscillation_term_Ok as [osc ->]; [done|]. simpl. eauto.
Qed.

(** At the start frame of a segment the pass writes the start value. *)
Lemma cell_value_at_start (a : animator) (K : list Z) (s e : Z) (joint : string)
    (ks : gmap string R) :
  s ∈ K → keyframes a !! s = Some ks → is_Some (keyframes a !! e) →
  cell_value a K s e s joint = Ok (dict_get ks joint 0).
Proof.
  intros HK Hs [ke He]. unfold cell_value, start_value, end_value, oscillation_term.
  rewrite (getitem_Some _ _ _ Hs), (getitem_Some _ _ _ He). simpl.
  rewrite precision_zone_at_keyframe by done. simpl.
  rewrite segment_t_start, ease_0, base_value_start. f_equal. lra.
Qed.

(** At the end frame of a segment the pass writes the end value. *)
Lemma cell_value_at_end (a : animator) (K : list Z) (s e : Z) (joint : string)
    (ks ke : gmap string R) :
  e ∈ K → s ≠ e → keyframes a !! s = Some ks → keyframes a !! e = Some ke →
  cell_value a K s e e joint = Ok (dict_get ke joint (dict_get ks joint 0)).
Proof.
  intros HK Hne Hs He. unfold cell_value, start_value, end_value, oscillation_term.
  rewrite (getitem_Some _ _ _ Hs), (getitem_Some _ _ _ He). simpl.
  rewrite precision_zone_at_keyframe by done. simpl.
  rewrite segment_t_end, ease_1, base_value_end by done. f_equal. lra.
Qed.

Lemma dict_get_Some (d : gmap string R) (joint : string) (v dflt : R) :
  d !! joint = Some v → dict_get d joint dflt = v.
Proof. intros Hj. unfold dict_get. by rewrite Hj. Qed.

Lemma dict_get_None (d : gmap string R) (joint : string) (dflt : R) :
  d !! joint = None → dict_get d joint dflt = dflt.
Proof. intros Hj. unfold dict_get. by rewrite Hj. Qed.

(** A keyframe frame inside a segment is one of its two ends, and the value
    written there is the keyframe's own. *)
Lemma cell_value_at_keyframe (a : animator) (s e k : Z) (joint : string)
    (m : gmap string R) (v : R) :
  (s, e) ∈ segments (sorted_keys (keyframes a)) →
  s ≤ k ≤ e → keyframes a !! k = Some m → m !! joint = Some v →
  cell_value a (sorted_keys (keyframes a)) s e k joint = Ok v.
Proof.
  intros Hseg Hrange Hk Hj.
  destruct (segments_spec _ _ _ (sorted_keys_lt _) Hseg) as (Hs & He & Hlt & Hmid).
  assert (k ∈ sorted_keys (keyframes a)) as HkK by (apply elem_of_sorted_keys; eauto).
  pose proof Hs as Hs'. pose proof He as He'.
  apply elem_of_sorted_keys in Hs' as [ks Hks].
  apply elem_of_sorted_keys in He' as [ke Hke].
  destruct (Hmid k HkK Hrange) as [-> | ->].
  - rewrite (cell_value_at_start _ _ _ _ _ ks) by eauto.
    f_equal. rewrite Hks in Hk. injection Hk as ->. by apply dict_get_Some.
  - rewrite (cell_value_at_end _ _ _ _ _ ks ke) by (done || lia).
    f_equal. rewrite Hke in Hk. injection Hk as ->. by apply dict_get_Some.
Qed.

(** ** The segment loops on a well-formed animator *)

Lemma np_index_in_range (n i : Z) : 0 ≤ i < n → np_index n i = Ok (Z.to_nat i).
Proof. intros Hi. unfold np_index. by rewrite bool_decide_eq_true_2. Qed.

Lemma np_index_wrap (n i : Z) :
  - n ≤ i < 0 → np_index n i = Ok (Z.to_nat (n + i)).
Proof.
  intros Hi. unfold np_index.
  rewrite bool_decide_eq_false_2 by lia. by rewrite bool_decide_eq_true_2.
Qed.

Lemma np_index_out (n i : Z) : 0 ≤ n → n ≤ i ∨ i < - n → np_index n i = Raise IndexError.
Proof.
  intros Hn Hi. unfold np_index.
  rewrite bool_decide_eq_false_2 by lia. by rewrite bool_decide_eq_false_2 by lia.
Qed.

Lemma array_set_in_range (col : list R) (i : Z) (v : R) :
  0 ≤ i < Z.of_nat (length col) → array_set col i v = Ok (<[Z.to_nat i := v]> col).
Proof. intros Hi. unfold array_set. by rewrite np_index_in_range. Qed.

Lemma array_set_wrap (col : list R) (i : Z) (v : R) :
  - Z.of_nat (length col) ≤ i < 0 →
  array_set col i v = Ok (<[Z.to_nat (Z.of_nat (length col) + i) := v]> col).
Proof. intros Hi. unfold array_set. by rewrite np_index_wrap. Qed.

Lemma array_set_out (col : list R) (i : Z) (v : R) :
  Z.of_nat (length col) ≤ i ∨ i < - Z.of_nat (length col) →
  array_set col i v = Raise IndexError.
Proof. intros Hi. unfold array_set. rewrite np_index_out; [done|lia|done]. Qed.

Lemma data_ok_insert (n : Z) (d : gmap string (list R)) (joint : string) (col : list R) :
  data_ok n d → Z.of_nat (length col) = n → data_ok n (<[joint := col]> d).
Proof.
  intros Hd Hlen j Hj. destruct (decide (joint = j)) as [->|Hne].
  - rewrite lookup_insert_eq. eauto.
  - rewrite lookup_insert_ne by done. by apply Hd.
Qed.

Lemma cell_is_insert_other_joint (d : gmap string (list R)) (j j0 : string)
    (col : list R) (k0 : Z) (v0 : R) :
  j ≠ j0 → cell_is d j0 k0 v0 → cell_is (<[j := col]> d) j0 k0 v0.
Proof. intros Hne (c & Hc & Hv). exists c. by rewrite lookup_insert_ne. Qed.

Section segment_loops.
Context (a : animator).
Let K := sorted_keys (keyframes a).
Let n := total_frames a.
Hypothesis Hregistry : registry_ok a.
Hypothesis Hrange : keyframes_in_range a.

Lemma joint_step_run (s e f : Z) (joint : string) (d : gmap string (list R)) :
  (s, e) ∈ segments K → s ≤ f ≤ e → joint ∈ all_joints → data_ok n d →
  ∃ v col,
    cell_value a K s e f joint = Ok v ∧ d !! joint = Some col ∧
    Z.of_nat (length col) = n ∧ 0 ≤ f < n ∧
    joint_step a K s e f joint d = Ok (<[joint := <[Z.to_nat f := v]> col]> d).
Proof.
  intros Hseg Hf Hjoint Hd.
  destruct (segments_spec _ _ _ (sorted_keys_lt _) Hseg) as (Hs & He & Hlt & _).
  apply elem_of_sorted_keys in Hs, He.
  assert (0 ≤ s ∧ e < n) as [Hs0 Hen].
  { split; [apply (Hrange s Hs)|apply (Hrange e He)]. }
  destruct (cell_value_Ok a K s e f joint) as [v Hv]; [by auto..|].
  destruct (Hd joint Hjoint) as (col & Hcol & Hlen).
  exists v, col. split_and!; [done|done|done|lia|lia|].
  unfold joint_step. rewrite Hv. simpl.
  rewrite (getitem_Some _ _ _ Hcol). simpl.
  by rewrite array_set_in_range by lia.
Qed.

Lemma joint_step_data_ok (s e f : Z) (joint : string) (d : gmap string (list R)) :
  (s, e) ∈ segments K → s ≤ f ≤ e → joint ∈ all_joints → data_ok n d →
  ∃ d', joint_step a K s e f joint d = Ok d' ∧ data_ok n d'.
Proof.
  intros Hseg Hf Hjoint Hd.
  destruct (joint_step_run s e f joint d) as (v & col & _ & _ & Hlen & _ & Hrun);
    [done..|].
  eexists. split; [done|]. apply data_ok_insert; [done|]. by rewrite length_insert.
Qed.

Lemma segments_run (d : gmap string (list R)) :
  data_ok n d →
  ∃ d', for_each (segment_step a K) (segments K) d = Ok d' ∧ data_ok n d'.
Proof.
  intros Hd.
  destruct (for_each_touch (segment_step a K) (data_ok n) (λ _, True) (λ _, False)
              (segments K)) with (s := d) as (d' & Hrun & Hd' & _); [|done|by eauto].
  intros [s e] t Hseg Ht. unfold segment_step. simpl.
  destruct (for_each_touch (frame_step a K s e) (data_ok n) (λ _, True) (λ _, False)
              (seqZ s (e + 1 - s))) with (s := t) as (t' & Hrun & Ht' & _);
    [|done|by eauto].
  intros f u Hf Hu. apply elem_of_seqZ in Hf. unfold frame_step.
  destruct (for_each_touch (joint_step a K s e f) (data_ok n) (λ _, True) (λ _, False)
              all_joints) with (s := u) as (u' & Hrun & Hu' & _);
    [|done|by eauto].
  intros joint w Hjoint Hw.
  destruct (joint_step_data_ok s e f joint w) as (w' & Hrun & Hw'); [done|lia|done..|].
  eauto.
Qed.

(** The cell the rest of the section follows: every segment that contains
    frame [k0] computes [v0] for joint [j0] there. *)
Context (k0 : Z) (j0 : string) (v0 : R).
Hypothesis Hk0 : 0 ≤ k0.
Hypothesis Hj0 : j0 ∈ all_joints.
Hypothesis Hv0 : ∀ s e,
  (s, e) ∈ segments K → s ≤ k0 ≤ e → cell_value a K s e k0 j0 = Ok v0.

Lemma joint_step_keeps (s e f : Z) (joint : string) (d : gmap string (list R)) :
  (s, e) ∈ segments K → s ≤ f ≤ e → joint ∈ all_joints → data_ok n d →
  ∃ d', joint_step a K s e f joint d = Ok d' ∧ data_ok n d' ∧
        (cell_is d j0 k0 v0 → cell_is d' j0 k0 v0) ∧
        (joint = j0 ∧ f = k0 → cell_is d' j0 k0 v0).
Proof.
  intros Hseg Hf Hjoint Hd.
  destruct (joint_step_run s e f joint d)
    as (v & col & Hv & Hcol & Hlen & Hfn & Hrun); [done..|].
  eexists. split; [done|].
  assert (joint = j0 → f = k0 → v = v0) as Hexact.
  { intros -> ->. rewrite Hv0 in Hv by done. by injection Hv. }
  assert (joint = j0 → f = k0 →
          cell_is (<[joint := <[Z.to_nat f := v]> col]> d) j0 k0 v0) as Htouch.
  { intros Hjj Hff. rewrite (Hexact Hjj Hff). subst joint f.
    exists (<[Z.to_nat k0 := v0]> col). rewrite lookup_insert_eq. split; [done|].
    apply list_lookup_insert_eq. lia. }
  split_and!.
  - apply data_ok_insert; [done|]. by rewrite length_insert.
  - intros Hcell. destruct (decide (joint = j0)) as [Hjj|Hjj];
      [|by apply cell_is_insert_other_joint].
    destruct (decide (f = k0)) as [Hff|Hff]; [by auto|].
    destruct Hcell as (c & Hc & Hcv). subst joint.
    rewrite Hcol in Hc. injection Hc as <-.
    exists (<[Z.to_nat f := v]> col). rewrite lookup_insert_eq. split; [done|].
    rewrite list_lookup_insert_ne; [done|]. lia.
  - intros [Hjj Hff]. by auto.
Qed.

Lemma frame_step_keeps (s e f : Z) (d : gmap string (list R)) :
  (s, e) ∈ segments K → s ≤ f ≤ e → data_ok n d →
  ∃ d', frame_step a K s e f d = Ok d' ∧ data_ok n d' ∧
        (cell_is d j0 k0 v0 → cell_is d' j0 k0 v0) ∧
        (f = k0 → cell_is d' j0 k0 v0).
Proof.
  intros Hseg Hf Hd. unfold frame_step.
  destruct (for_each_touch (joint_step a K s e f) (data_ok n)
              (λ d, cell_is d j0 k0 v0) (λ joint, joint = j0 ∧ f = k0) all_joints)
    with (s := d) as (d' & Hrun & Hd' & Hkeep & Htouch); [|done|].
  { intros joint t Hjoint Ht. by apply joint_step_keeps. }
  exists d'. split_and!; [done..|].
  intros Hff. apply Htouch. exists j0. done.
Qed.

Lemma segment_step_keeps (seg : Z * Z) (d : gmap string (list R)) :
  seg ∈ segments K → data_ok n d →
  ∃ d', segment_step a K seg d = Ok d' ∧ data_ok n d' ∧
        (cell_is d j0 k0 v0 → cell_is d' j0 k0 v0) ∧
        (seg.1 ≤ k0 ≤ seg.2 → cell_is d' j0 k0 v0).
Proof.
  destruct seg as [s e]. intros Hseg Hd. unfold segment_step. simpl.
  destruct (segments_spec _ _ _ (sorted_keys_lt _) Hseg) as (_ & _ & Hlt & _).
  destruct (for_each_touch (frame_step a K s e) (data_ok n)
              (λ d, cell_is d j0 k0 v0) (λ f, f = k0) (seqZ s (e + 1 - s)))
    with (s := d) as (d' & Hrun & Hd' & Hkeep & Htouch); [|done|].
  { intros f t Hf Ht. apply elem_of_seqZ in Hf. apply frame_step_keeps; [done|lia|done]. }
  exists d'. split_and!; [done..|].
  intros Hends. apply Htouch. exists k0. split; [|done].
  apply elem_of_seqZ. lia.
Qed.

Lemma segments_keep (d : gmap string (list R)) :
  (∃ seg, seg ∈ segments K ∧ seg.1 ≤ k0 ≤ seg.2) → data_ok n d →
  ∃ d', for_each (segment_step a K) (segments K) d = Ok d' ∧ data_ok n d' ∧
        cell_is d' j0 k0 v0.
Proof.
  intros Hcover Hd.
  destruct (for_each_touch (segment_step a K) (data_ok n)
              (λ d, cell_is d j0 k0 v0) (λ seg, seg.1 ≤ k0 ≤ seg.2) (segments K))
    with (s := d) as (d' & Hrun & Hd' & Hkeep & Htouch); [|done|].
  { intros seg t Hseg Ht. by apply segment_step_keeps. }
  exists d'. split_and!; [done..|]. by apply Htouch.
Qed.
End segment_loops.

(** ** The trajectory before smoothing *)

Lemma normalize_in_range (a : animator) (kf' : gmap Z (gmap string R)) :
  1 ≤ total_frames a → keyframes_in_range a →
  normalize (total_frames a) (keyframes a) = Ok kf' →
  keyframes_in_range (set_keyframes a kf').
Proof.
  intros Hn Hrange Hnorm k Hk. simpl in *.
  destruct (normalize_spec _ _ _ Hnorm) as (_ & _ & _ & _ & _ & Hother).
  destruct (decide (k = 0)) as [->|Hk0]; [lia|].
  destruct (decide (k = total_frames a - 1)) as [->|Hkl]; [lia|].
  apply Hrange. by rewrite <- Hother.
Qed.

Lemma normalize_two_keys (tf : Z) (kf kf' : gmap Z (gmap string R)) :
  2 ≤ tf → normalize tf kf = Ok kf' → (2 ≤ length (sorted_keys kf'))%nat.
Proof.
  intros Htf Hnorm.
  destruct (normalize_spec _ _ _ Hnorm) as (H0 & Hl & _).
  apply elem_of_sorted_keys in H0, Hl.
  pose proof (sorted_keys_NoDup kf') as Hnd.
  destruct (sorted_keys kf') as [|x [|y l]]; simpl; [| |lia].
  - by apply elem_of_nil in H0.
  - apply list_elem_of_singleton in H0, Hl. lia.
Qed.

(** On a well-formed animator whose keyframes all lie on frames of the
    trajectory, the segment loops finish, and the cell of every keyframe
    frame and every joint the keyframe assigns holds the keyframe's value. *)
Lemma assemble_exact (a : animator) :
  well_formed a → keyframes_in_range a → 2 ≤ total_frames a →
  ∃ kf' d',
    normalize (total_frames a) (keyframes a) = Ok kf' ∧
    assemble a = Ok (set_data (set_keyframes a kf') d') ∧
    data_ok (total_frames a) d' ∧
    ∀ k m joint v,
      kf' !! k = Some m → m !! joint = Some v → joint ∈ all_joints →
      cell_is d' joint k v.
Proof.
  intros (Hn & Hreg & Hdata) Hrange Htf.
  destruct (normalize_Ok (total_frames a) (keyframes a)) as [kf' Hnorm].
  pose proof (normalize_in_range a kf' ltac:(lia) Hrange Hnorm) as Hrange'.
  pose proof (normalize_two_keys _ _ _ Htf Hnorm) as Hlen.
  destruct (segments_run (set_keyframes a kf') Hreg Hrange' (data a) Hdata)
    as (d' & Hrun & Hd').
  exists kf', d'. split; [done|]. split.
  { unfold assemble. rewrite Hnorm. simpl. simpl in Hrun. by rewrite Hrun. }
  split; [done|].
  intros k m joint v Hk Hj Hjoint.
  destruct (segments_keep (set_keyframes a kf') Hreg Hrange' k joint v) with (d := data a)
    as (d'' & Hrun' & _ & Hcell); [| |by eauto using cell_value_at_keyframe| |done|].
  - apply Hrange'. simpl. eauto.
  - done.
  - destruct (segments_cover (sorted_keys kf') k Hlen) as (seg & Hseg & Hends).
    { apply elem_of_sorted_keys. eauto. }
    exists seg. split; [done|]. destruct seg as [s e].
    destruct (segments_spec _ _ _ (sorted_keys_lt _) Hseg) as (_ & _ & Hlt & _).
    simpl in *. lia.
  - simpl in Hrun, Hrun'. rewrite Hrun in Hrun'. by injection Hrun' as <-.
Qed.

(** ** Smoothing *)

Lemma foldl_insert_lookup (g : Z → R) (acc : list R) (m : nat) :
  length (foldl (λ smoothed i, <[Z.to_nat i := g i]> smoothed) acc
                (seqZ 0 (Z.of_nat m))) = length acc ∧
  ∀ i, (i < length acc)%nat →
       foldl (λ smoothed i, <[Z.to_nat i := g i]> smoothed) acc
             (seqZ 0 (Z.of_nat m)) !! i
       = if decide (i < m)%nat then Some (g (Z.of_nat i)) else acc !! i.
Proof.
  induction m as [|m [IHlen IH]].
  - split; [done|]. intros i Hi. rewrite decide_False by lia. done.
  - rewrite seqZ_S, foldl_app. cbn [foldl]. rewrite length_insert. split; [done|].
    intros i Hi. rewrite Z.add_0_l, Nat2Z.id.
    destruct (decide (i = m)) as [->|Hne].
    + rewrite list_lookup_insert_eq by lia. by rewrite decide_True by lia.
    + rewrite list_lookup_insert_ne by done. rewrite IH by done.
      destruct (decide (i < m)%nat); [by rewrite decide_True by lia|].
      by rewrite decide_False by lia.
Qed.

Lemma length_moving_average (col : list R) (w : Z) :
  length (moving_average col w) = length col.
Proof. apply (foldl_insert_lookup _ col (length col)). Qed.

Lemma moving_average_lookup (col : list R) (w : Z) (i : nat) :
  (i < length col)%nat →
  moving_average col w !! i =
    Some (np_mean (slice col (Z.max 0 (Z.of_nat i - w `div` 2))
                             (Z.min (Z.of_nat (length col))
                                    (Z.of_nat i + w `div` 2 + 1)))).
Proof.
  intros Hi. unfold moving_average.
  destruct (foldl_insert_lookup
              (λ i, np_mean (slice col (Z.max 0 (i - w `div` 2))
                                       (Z.min (Z.of_nat (length col))
                                              (i + w `div` 2 + 1))))
              col (length col)) as [_ Hlook].
  rewrite Hlook by done. by rewrite decide_True by done.
Qed.

Lemma slice_lookup (col : list R) (lo hi : Z) (t : nat) :
  0 ≤ lo → (t < Z.to_nat hi - Z.to_nat lo)%nat →
  slice col lo hi !! t = col !! (Z.to_nat lo + t)%nat.
Proof.
  intros Hlo Ht. unfold slice. rewrite lookup_take_lt by done. apply lookup_drop.
Qed.

Lemma length_slice (col : list R) (lo hi : Z) :
  0 ≤ lo ≤ hi → hi ≤ Z.of_nat (length col) →
  Z.of_nat (length (slice col lo hi)) = hi - lo.
Proof.
  intros Hlo Hhi. unfold slice. rewrite length_take, length_drop. lia.
Qed.

Lemma smooth_joint_Ok (a : animator) (joint : string) (d : gmap string (list R))
    (factor : R) (col : list R) :
  osc_factors a !! joint = Some factor → d !! joint = Some col →
  smooth_joint a joint d
    = Ok (<[joint := moving_average col (smoothing_window factor)]> d).
Proof.
  intros Hfactor Hcol. unfold smooth_joint.
  by rewrite (getitem_Some _ _ _ Hfactor), (getitem_Some _ _ _ Hcol).
Qed.

Lemma smooth_joints_run (a : animator) (l : list string) (d : gmap string (list R)) :
  NoDup l →
  (∀ joint, joint ∈ l → is_Some (osc_factors a !! joint) ∧ is_Some (d !! joint)) →
  ∃ d', for_each (smooth_joint a) l d = Ok d' ∧
        (∀ joint, joint ∉ l → d' !! joint = d !! joint) ∧
        (∀ joint factor col,
           joint ∈ l → osc_factors a !! joint = Some factor → d !! joint = Some col →
           d' !! joint = Some (moving_average col (smoothing_window factor))).
Proof.
  intros Hnd. revert d. induction Hnd as [|j l Hj Hnd IH]; intros d Hok; cbn [for_each].
  - exists d. split_and!; [done..|]. intros joint factor col Hin. by apply elem_of_nil in Hin.
  - destruct (Hok j) as [[factor Hfactor] [col Hcol]]; [left|].
    rewrite (smooth_joint_Ok a j d factor col) by done. simpl.
    destruct (IH (<[j := moving_average col (smoothing_window factor)]> d))
      as (d' & Hrun & Hout & Hin).
    { intros joint Hjoint. destruct (Hok joint) as [Hf Hc]; [by right|].
      split; [done|]. rewrite lookup_insert_ne; [done|]. by intros ->. }
    exists d'. split; [done|]. split.
    + intros joint Hjoint. apply not_elem_of_cons in Hjoint as [Hne Hjoint].
      rewrite Hout by done. by rewrite lookup_insert_ne.
    + intros joint factor' col' Hjoint Hf' Hc'.
      apply elem_of_cons in Hjoint as [->|Hjoint].
      * rewrite Hout by done. rewrite lookup_insert_eq. congruence.
      * apply Hin; [done..|]. rewrite lookup_insert_ne; [done|]. by intros ->.
Qed.

Lemma rotational_joints_NoDup : NoDup rotational_joints.
Proof. apply (bool_decide_unpack (NoDup rotational_joints)). by vm_compute. Qed.

Lemma rotational_in_all (joint : string) : joint ∈ rotational_joints → joint ∈ all_joints.
Proof. intros Hj. unfold all_joints. apply elem_of_app. by left. Qed.

Lemma slider_not_rotational (joint : string) :
  joint ∈ slider_joints → joint ∉ rotational_joints.
Proof.
  unfold slider_joints, rotational_joints. rewrite !elem_of_cons, !elem_of_nil.
  intros [->|[->|[]]] Hr; repeat (destruct Hr as [Hr|Hr]; [discriminate|]); done.
Qed.

Lemma apply_smoothing_run (a : animator) :
  registry_ok a → data_ok (total_frames a) (data a) →
  ∃ d', _apply_smoothing a = Ok (set_data a d') ∧
        (∀ joint, joint ∉ rotational_joints → d' !! joint = data a !! joint) ∧
        (∀ joint factor col,
           joint ∈ rotational_joints → osc_factors a !! joint = Some factor →
           data a !! joint = Some col →
           d' !! joint = Some (moving_average col (smoothing_window factor))).
Proof.
  intros Hreg Hdata.
  destruct (smooth_joints_run a rotational_joints (data a) rotational_joints_NoDup)
    as (d' & Hrun & Hout & Hin).
  { intros joint Hj. apply rotational_in_all in Hj. split; [by apply Hreg|].
    destruct (Hdata joint Hj) as (col & -> & _). eauto. }
  exists d'. split; [|done]. unfold _apply_smoothing. by rewrite Hrun.
Qed.

(** ** Exactness at keyframes *)

(** The whole of [generate_movement] on a well-formed animator with
    keyframes: the raw trajectory with exact keyframe cells, then the
    smoothing pass that rewrites the rotational columns only. *)
Lemma generate_movement_run (a : animator) :
  well_formed a → keyframes_in_range a → 2 ≤ total_frames a → keyframes a ≠ ∅ →
  ∃ raw final,
    assemble a = Ok raw ∧ generate_movement a = Ok final ∧
    normalize (total_frames a) (keyframes a) = Ok (keyframes raw) ∧
    keyframes final = keyframes raw ∧
    data_ok (total_frames a) (data raw) ∧
    (∀ k m joint v,
       keyframes raw !! k = Some m → m !! joint = Some v → joint ∈ all_joints →
       cell_is (data raw) joint k v) ∧
    (∀ joint, joint ∉ rotational_joints → data final !! joint = data raw !! joint) ∧
    (∀ joint factor col,
       joint ∈ rotational_joints → osc_factors a !! joint = Some factor →
       data raw !! joint = Some col →
       data final !! joint = Some (moving_average col (smoothing_window factor))).
Proof.
  intros Hwf Hrange Htf Hne.
  destruct (assemble_exact a Hwf Hrange Htf) as (kf' & d' & Hnorm & Hraw & Hd' & Hcells).
  destruct Hwf as (Hn & Hreg & Hdata).
  destruct (apply_smoothing_run (set_data (set_keyframes a kf') d') Hreg Hd')
    as (d'' & Hsmooth & Hout & Hin).
  eexists _, _. split; [exact Hraw|]. split.
  { unfold generate_movement. rewrite decide_False by (by rewrite sorted_keys_nil).
    unfold generate_with_keyframes. rewrite Hraw. simpl. exact Hsmooth. }
  done.
Qed.


Lemma py_int_IZR (x : R) (z : Z) : 0 ≤ z → x = IZR z → py_int x = z.
Proof.
  intros Hz ->. unfold py_int. rewrite decide_True by (by apply IZR_le).
  symmetry. apply Int_part_spec. lra.
Qed.

Lemma smoothing_window_1 : smoothing_window 1.0 = 5.
Proof. unfold smoothing_window. rewrite (py_int_IZR _ 5); [done|lia|lra]. Qed.

Lemma three_frames_ok :
  well_formed three_frames ∧ keyframes_in_range three_frames ∧
  keyframes three_frames ≠ ∅ ∧
  normalize 3 (keyframes three_frames) = Ok (keyframes three_frames).
Proof.
  split_and!.
  - repeat apply add_keyframe_well_formed. by apply init_well_formed.
  - intros k. unfold three_frames. simpl. rewrite !lookup_insert.
    repeat (case_decide; [lia|]). rewrite lookup_empty. by intros [? ?].
  - apply insert_non_empty.
  - apply normalize_present; simpl; eauto.
Qed.


Lemma set_keyframes_id (a : animator) : set_keyframes a (keyframes a) = a.
Proof. by destruct a. Qed.

Lemma assemble_inv (a raw : animator) (kf' : gmap Z (gmap string R)) :
  normalize (total_frames a) (keyframes a) = Ok kf' →
  assemble a = Ok raw →
  for_each (segment_step (set_keyframes a kf') (sorted_keys kf'))
           (segments (sorted_keys kf')) (data a) = Ok (data raw).
Proof.
  intros Hnorm. unfold assemble. rewrite Hnorm. cbn [mbind result_bind].
  intros Hrun. apply bind_Ok in Hrun as (d' & Hrun & [= <-]). exact Hrun.
Qed.

(** The specification's own test, keyframes 0, 30, 0 at frames 0, 50, 99 of
    100: the returned value of joint_1 at frame 50 is below 30. *)

Lemma ease_bounds (t : R) : (0 <= ease t <= 1)%R.
Proof. unfold ease. pose proof (COS_bound (t * PI)). lra. Qed.

Lemma cos_gt_m1 (x : R) : (0 < x < PI)%R → (-1 < cos x)%R.
Proof.
  intros [Hx0 HxPI]. pose proof (COS_bound x) as [Hlo _].
  pose proof (sin_gt_0 x Hx0 HxPI) as Hsin.
  pose proof (sin2_cos2 x) as Hsq. unfold Rsqr in Hsq.
  destruct (Rle_lt_or_eq_dec _ _ Hlo) as [Hlt|Heq]; [done|].
  rewrite <- Heq in Hsq. nra.
Qed.

Lemma spec_exactness_test_frames :
  sorted_keys (keyframes spec_exactness_test) = [0; 50; 99].
Proof.
  apply sorted_keys_unique.
  - repeat (constructor; [|repeat (constructor; [lia|]); constructor]). constructor.
  - intros k. unfold spec_exactness_test. simpl. rewrite !elem_of_cons, elem_of_nil.
    rewrite !lookup_insert. split.
    + intros [->|[->|[->|[]]]]; simpl; eauto.
    + repeat (case_decide; [by auto|]). rewrite lookup_empty. by intros [? ?].
Qed.

Lemma spec_exactness_test_ok :
  well_formed spec_exactness_test ∧ keyframes_in_range spec_exactness_test ∧
  keyframes spec_exactness_test ≠ ∅ ∧
  normalize 100 (keyframes spec_exactness_test) = Ok (keyframes spec_exactness_test).
Proof.
  split_and!.
  - repeat apply add_keyframe_well_formed. by apply init_well_formed.
  - intros k Hk. apply elem_of_sorted_keys in Hk.
    rewrite spec_exactness_test_frames, !elem_of_cons, elem_of_nil in Hk.
    change (total_frames spec_exactness_test) with 100. lia.
  - apply insert_non_empty.
  - apply normalize_present; simpl; eauto.
Qed.

(** The raw cell of joint_1 at a frame strictly inside a segment of the
    test is the eased base value of that segment. *)
Lemma spec_exactness_test_raw (raw : animator) (s e f : Z) (sv ev : R) :
  assemble spec_exactness_test = Ok raw →
  (s, e, sv, ev) = (0, 50, 0%R, 30%R) ∨ (s, e, sv, ev) = (50, 99, 30%R, 0%R) →
  s < f < e → Z.abs (f - 50) < 10 →
  cell_is (data raw) "joint_1" f (base_value sv ev (ease (segment_t s e f))).
Proof.
  intros Hraw Hseg Hf Hnear.
  destruct spec_exactness_test_ok as ((Hn & Hreg & Hdata) & Hrange & Hne & Hnorm).
  destruct (segments_keep spec_exactness_test Hreg Hrange f "joint_1"
              (base_value sv ev (ease (segment_t s e f)))) with (d := data spec_exactness_test)
    as (d' & Hrun & _ & Hcell).
  - destruct Hseg as [[= -> -> -> ->]|[= -> -> -> ->]]; lia.
  - apply elem_of_all_joints. auto.
  - rewrite spec_exactness_test_frames. unfold segments. simpl.
    intros s' e'. rewrite !elem_of_cons, elem_of_nil.
    assert (is_precision_zone [0; 50; 99] f = true) as Hzone.
    { apply is_precision_zone_spec. exists 50. split; [|done].
      rewrite !elem_of_cons. auto. }
    intros [[= -> ->]|[[= -> ->]|[]]] Hin;
      destruct Hseg as [[= -> -> -> ->]|[= -> -> -> ->]]; try lia;
      unfold cell_value, oscillation_term; rewrite Hzone.
    + change (start_value spec_exactness_test 0 "joint_1") with (Ok 0%R).
      cbn [mbind result_bind].
      change (end_value spec_exactness_test 50 "joint_1" 0) with (Ok 30%R).
      cbn [mbind result_bind]. f_equal. lra.
    + change (start_value spec_exactness_test 50 "joint_1") with (Ok 30%R).
      cbn [mbind result_bind].
      change (end_value spec_exactness_test 99 "joint_1" 30) with (Ok 0%R).
      cbn [mbind result_bind]. f_equal. lra.
  - rewrite spec_exactness_test_frames. unfold segments. simpl.
    exists (s, e). rewrite !elem_of_cons. simpl.
    destruct Hseg as [[= -> -> -> ->]|[= -> -> -> ->]]; split; auto; lia.
  - done.
  - pose proof (assemble_inv spec_exactness_test raw _ Hnorm Hraw) as Hrun'.
    rewrite set_keyframes_id in Hrun'. rewrite Hrun in Hrun'.
    by injection Hrun' as ->.
Qed.

Lemma spec_exactness_test_drifts :
  ∃ final v,
    generate_movement spec_exactness_test = Ok final ∧
    keyframes spec_exactness_test !! 50 = Some {[ "joint_1" := 30%R ]} ∧
    cell_is (data final) "joint_1" 50 v ∧ (v < 30)%R.
Proof.
  destruct spec_exactness_test_ok as (Hwf & Hrange & Hne & Hnorm).
  destruct (generate_movement_run spec_exactness_test Hwf Hrange ltac:(done) Hne)
    as (raw & final & Hraw & Hrun & Hnorm' & _ & Hdata & Hcells & _ & Hsmooth).
  change (total_frames spec_exactness_test) with 100 in *.
  rewrite Hnorm in Hnorm'. injection Hnorm' as Hkf.
  assert ("joint_1" ∈ all_joints) as Hj by (apply elem_of_all_joints; auto).
  destruct (Hdata "joint_1" Hj) as (col & Hcol & Hlen).
  assert (∀ f v, cell_is (data raw) "joint_1" f v → col !! Z.to_nat f = Some v) as Hread.
  { intros f v (c & Hc & Hv). rewrite Hcol in Hc. by injection Hc as <-. }
  pose proof (Hread 48 _ (spec_exactness_test_raw raw 0 50 48 0 30 Hraw
                ltac:(by left) ltac:(lia) ltac:(simpl; lia))) as H48.
  pose proof (Hread 49 _ (spec_exactness_test_raw raw 0 50 49 0 30 Hraw
                ltac:(by left) ltac:(lia) ltac:(simpl; lia))) as H49.
  pose proof (Hread 51 _ (spec_exactness_test_raw raw 50 99 51 30 0 Hraw
                ltac:(by right) ltac:(lia) ltac:(simpl; lia))) as H51.
  pose proof (Hread 52 _ (spec_exactness_test_raw raw 50 99 52 30 0 Hraw
                ltac:(by right) ltac:(lia) ltac:(simpl; lia))) as H52.
  pose proof (Hread 50 30%R (Hcells 50 {[ "joint_1" := 30%R ]} "joint_1" 30%R
                ltac:(by rewrite <- Hkf) ltac:(done) Hj)) as H50.
  specialize (Hsmooth "joint_1" 1.0%R col ltac:(by left) ltac:(done) Hcol).
  rewrite smoothing_window_1 in Hsmooth.
  eexists final, _. split; [done|]. split; [done|]. split.
  { eexists. split; [exact Hsmooth|].
    apply moving_average_lookup. change (Z.to_nat 50) with 50%nat. lia. }
  change (Z.to_nat 50) with 50%nat.
  replace (Z.of_nat (length col)) with 100 by done.
  change (Z.max 0 (Z.of_nat 50 - 5 `div` 2)) with 48.
  change (Z.min 100 (Z.of_nat 50 + 5 `div` 2 + 1)) with 53.
  assert (slice col 48 53 =
          [base_value 0 30 (ease (segment_t 0 50 48));
           base_value 0 30 (ease (segment_t 0 50 49)); 30%R;
           base_value 30 0 (ease (segment_t 50 99 51));
           base_value 30 0 (ease (segment_t 50 99 52))]) as ->.
  { apply list_eq. intros t.
    destruct (decide (t < 5)%nat) as [Ht|Ht].
    - rewrite slice_lookup by lia.
      do 5 (destruct t as [|t]; [done|]). lia.
    - rewrite !lookup_ge_None_2; [done|simpl; lia|].
      assert (Z.of_nat (length (slice col 48 53)) = 53 - 48) by (apply length_slice; lia).
      lia. }
  unfold np_mean. simpl.
  pose proof (ease_bounds (segment_t 0 50 48)) as B48.
  pose proof (ease_bounds (segment_t 50 99 51)) as B51.
  pose proof (ease_bounds (segment_t 50 99 52)) as B52.
  assert (ease (segment_t 0 50 49) < 1)%R as B49.
  { unfold ease, segment_t. rewrite decide_True by done.
    assert (-1 < cos (IZR (49 - 0) / IZR (50 - 0) * PI))%R; [|lra].
    apply cos_gt_m1. change (49 - 0) with 49. change (50 - 0) with 50.
    pose proof PI_RGT_0. lra. }
  unfold base_value. lra.
Qed.



(** ** The frame shared by two adjacent segments *)

Lemma hold_then_omit_frames : sorted_keys (keyframes hold_then_omit) = [0; 100; 399].
Proof.
  apply sorted_keys_unique.
  - repeat (constructor; [|repeat (constructor; [lia|]); constructor]). constructor.
  - intros k. unfold hold_then_omit. simpl. rewrite !elem_of_cons, elem_of_nil.
    rewrite !lookup_insert. split.
    + intros [->|[->|[->|[]]]]; simpl; eauto.
    + repeat (case_decide; [by auto|]). rewrite lookup_empty. by intros [? ?].
Qed.




(** ** The smoothing filter *)

Lemma Int_part_eq (x : R) (z : Z) : (IZR z <= x < IZR z + 1)%R → Int_part x = z.
Proof. intros Hx. symmetry. apply Int_part_spec. lra. Qed.

Lemma smoothing_window_joint_4 : smoothing_window 1.1 = 5.
Proof.
  unfold smoothing_window, py_int. rewrite decide_True by lra.
  rewrite (Int_part_eq _ 5); [done|lra].
Qed.

Lemma spec_smoothing_window_joint_4 : spec_smoothing_window 1.1 = 6.
Proof.
  unfold spec_smoothing_window, py_round, frac_part.
  rewrite (Int_part_eq _ 5) by lra.
  rewrite decide_False by lra. rewrite decide_False by lra. done.
Qed.

(** C8 as stated fails: the window size is [max(3, int(factor * 5))], with
    truncation.  For joint_4 (factor 1.1) the code's window is 5 where
    rounding gives 6, and the two windows smooth differently. *)
Lemma smoothing_filter_counterexample :
  ¬ (∀ factor, smoothing_window factor = spec_smoothing_window factor) ∧
  osc_factors (init 400 1) !! "joint_4" = Some 1.1%R ∧
  moving_average [0; 0; 0; 0; 0; 0; 7]%R (smoothing_window 1.1) !! 3%nat = Some 0%R ∧
  moving_average [0; 0; 0; 0; 0; 0; 7]%R (spec_smoothing_window 1.1) !! 3%nat = Some 1%R.
Proof.
  split_and!.
  - intros Hsame. specialize (Hsame 1.1%R).
    rewrite smoothing_window_joint_4, spec_smoothing_window_joint_4 in Hsame. done.
  - done.
  - rewrite smoothing_window_joint_4, moving_average_lookup by (simpl; lia).
    f_equal. unfold np_mean. simpl. lra.
  - rewrite spec_smoothing_window_joint_4, moving_average_lookup by (simpl; lia).
    f_equal. unfold np_mean. simpl. lra.
Qed.

(** C8 (amended). [_apply_smoothing] rewrites the seven rotational columns
    and no other: a slider column is returned as it was.  Cell [i] of a
    rotational column becomes the mean of the raw cells [lo .. hi-1] with
    [w = max(3, int(factor * 5))] (truncation, not rounding),
    [lo = max(0, i - w // 2)] and [hi = min(len, i + w // 2 + 1)]: the window
    is cut at both ends of the column, it always contains [i], and its
    samples are cells of the column itself. *)
Theorem smoothing_filter (a : animator) :
  registry_ok a → data_ok (total_frames a) (data a) →
  ∃ final,
    _apply_smoothing a = Ok final ∧
    (∀ joint, joint ∈ slider_joints → data final !! joint = data a !! joint) ∧
    (∀ joint, joint ∈ rotational_joints →
       ∃ factor col smoothed,
         osc_factors a !! joint = Some factor ∧
         data a !! joint = Some col ∧
         data final !! joint = Some smoothed ∧
         length smoothed = length col ∧
         ∀ i : nat, (i < length col)%nat →
           let w := Z.max 3 (py_int (factor * 5)) in
           let lo := Z.max 0 (Z.of_nat i - w `div` 2) in
           let hi := Z.min (Z.of_nat (length col)) (Z.of_nat i + w `div` 2 + 1) in
           smoothed !! i = Some (np_mean (slice col lo hi)) ∧
           0 ≤ lo ≤ Z.of_nat i ∧ Z.of_nat i < hi ≤ Z.of_nat (length col) ∧
           Z.of_nat (length (slice col lo hi)) = hi - lo ∧
           ∀ t : nat, Z.of_nat t < hi - lo →
             slice col lo hi !! t = col !! (Z.to_nat lo + t)%nat).
Proof.
  intros Hreg Hdata.
  destruct (apply_smoothing_run a Hreg Hdata) as (d' & Hrun & Hout & Hin).
  exists (set_data a d'). split; [done|]. split.
  { intros joint Hslider. apply Hout. by apply slider_not_rotational. }
  intros joint Hrot.
  destruct (Hreg joint (rotational_in_all _ Hrot)) as [factor Hfactor].
  destruct (Hdata joint (rotational_in_all _ Hrot)) as (col & Hcol & Hlen).
  exists factor, col, (moving_average col (smoothing_window factor)).
  split; [done|]. split; [done|]. split; [by apply Hin|].
  split; [apply length_moving_average|].
  intros i Hi w lo hi.
  assert (1 ≤ w `div` 2) as Hhalf.
  { apply (Z.div_le_lower_bound w 2 1); unfold w; lia. }
  assert (0 ≤ lo ≤ Z.of_nat i ∧ Z.of_nat i < hi ≤ Z.of_nat (length col)) as Hbounds
    by (unfold lo, hi; lia).
  split; [by apply moving_average_lookup|].
  split; [lia|]. split; [lia|].
  split; [apply length_slice; lia|].
  intros t Ht. apply slice_lookup; lia.
Qed.

Lemma smoothing_filter_witness :
  ∃ final,
    _apply_smoothing three_frames = Ok final ∧
    data final !! "Slider 22" = data three_frames !! "Slider 22".
Proof.
  destruct three_frames_ok as ((_ & Hreg & Hdata) & _).
  destruct (smoothing_filter three_frames Hreg Hdata) as (final & Hrun & Hsliders & _).
  exists final. split; [done|]. apply Hsliders.
  unfold slider_joints. by left.
Defined.

(** ** The publisher's row decoder *)

Section publisher.
Import Publisher.
Context (float_of_string : string → option R).

Lemma convert_degrees (config : joint_entry) (c : cell) (v : R) :
  is_degree config = true →
  py_float float_of_string c = Ok v →
  convert float_of_string config c = Ok (v * PI / 180)%R.
Proof. intros Hdeg Hc. unfold convert. rewrite Hc. simpl. by rewrite Hdeg. Qed.

Lemma py_float_raises (c : cell) (e : exn) :
  py_float float_of_string c = Raise e → e = ValueError ∨ e = TypeError.
Proof.
  destruct c as [x|s|]; simpl.
  - intros [=].
  - destruct (float_of_string s); intros [=]; auto.
  - intros [=]; auto.
Qed.

(** One turn of the loop, for an entry marked [is_degree]. *)
Lemma row_step_degrees (config : joint_entry) (row : gmap string cell) (acc : list R) :
  is_degree config = true →
  match row !! csv_column config with
  | Some c =>
      match convert float_of_string config c with
      | Ok value => Ok (acc ++ [value])%list
      | Raise ValueError | Raise TypeError => Ok (acc ++ [0.0%R])%list
      | Raise e => Raise e
      end
  | None => Ok (acc ++ [0.0%R])%list
  end = Ok (acc ++ [degrees_channel float_of_string row (csv_column config)])%list.
Proof.
  intros Hdeg. unfold degrees_channel.
  replace 0.0%R with 0%R by lra.
  destruct (row !! csv_column config) as [c|]; [|done].
  destruct (py_float float_of_string c) as [v|e] eqn:Hc.
  - by rewrite (convert_degrees _ _ v).
  - unfold convert. rewrite Hc. simpl.
    by destruct (py_float_raises _ _ Hc) as [-> | ->].
Qed.

Lemma row_loop (p : publisher) (row : gmap string cell)
    (entries : list (string * joint_entry)) (acc : list R) :
  (∀ e, e ∈ entries → joint_config p !! e.1 = Some e.2 ∧ is_degree e.2 = true) →
  for_each
    (λ joint_name joint_values,
       config ← getitem (joint_config p) joint_name;
       match row !! csv_column config with
       | Some c =>
           match convert float_of_string config c with
           | Ok value => Ok (joint_values ++ [value])%list
           | Raise ValueError | Raise TypeError => Ok (joint_values ++ [0.0%R])%list
           | Raise e => Raise e
           end
       | None => Ok (joint_values ++ [0.0%R])%list
       end)
    entries.*1 acc
  = Ok (acc ++ ((λ e, degrees_channel float_of_string row (csv_column e.2))
                  <$> entries))%list.
Proof.
  revert acc. induction entries as [|e entries IH]; intros acc Hentries.
  - simpl. by rewrite app_nil_r.
  - destruct (Hentries e) as [Hcfg Hdeg]; [left|].
    cbn [fmap list_fmap for_each]. rewrite (getitem_Some _ _ _ Hcfg).
    cbn [mbind result_bind]. rewrite row_step_degrees by done.
    cbn [mbind result_bind]. rewrite IH.
    + by rewrite <- app_assoc.
    + intros e' He'. apply Hentries. by right.
Qed.

Lemma base_joint_config_degrees (e : string * joint_entry) :
  e ∈ base_joint_config → is_degree e.2 = true.
Proof.
  unfold base_joint_config. rewrite !elem_of_cons, elem_of_nil.
  intros Hin. repeat (destruct Hin as [->|Hin]; [done|]). done.
Qed.

Lemma base_joint_config_NoDup : NoDup base_joint_config.*1.
Proof. apply (bool_decide_unpack (NoDup base_joint_config.*1)). by vm_compute. Qed.

Lemma init_entries (joint_prefix : string) :
  ∃ entries,
    joint_names (init joint_prefix) = entries.*1 ∧
    csv_column <$> entries.*2 = csv_column <$> base_joint_config.*2 ∧
    ∀ e, e ∈ entries →
      joint_config (init joint_prefix) !! e.1 = Some e.2 ∧ is_degree e.2 = true.
Proof.
  unfold init. case_decide as Hprefix.
  - exists base_joint_config. split; [done|]. split; [done|].
    intros [name config] He. split; [|by apply (base_joint_config_degrees _ He)].
    apply elem_of_list_to_map_1; [apply base_joint_config_NoDup|done].
  - exists ((λ e, (joint_prefix +:+ e.1, e.2)) <$> base_joint_config).
    split; [done|]. split; [done|].
    intros e He. apply list_elem_of_fmap in He as (e0 & -> & He0). cbn [fst snd].
    split; [|by apply base_joint_config_degrees].
    apply elem_of_list_to_map_1.
    + rewrite <- list_fmap_compose.
      change ((fst ∘ (λ e, (joint_prefix +:+ e.1, e.2))) <$> base_joint_config)
        with ((String.app joint_prefix ∘ fst) <$> base_joint_config).
      rewrite list_fmap_compose. apply NoDup_fmap_2; [apply _|].
      apply base_joint_config_NoDup.
    + apply list_elem_of_fmap. by exists e0.
Qed.

(** C9. Whatever the joint prefix, every entry of the publisher's joint
    configuration is marked [is_degree], and decoding a row never raises:
    it returns nine values, one per configured column in order, each the
    cell times pi / 180 (the two slider columns included), or 0.0 when the
    column is missing from the row or [float] rejects the cell. *)
Theorem publisher_converts_all_as_degrees (joint_prefix : string)
    (row : gmap string cell) :
  (∀ name config,
     joint_config (init joint_prefix) !! name = Some config →
     is_degree config = true) ∧
  get_joint_values_from_row float_of_string (init joint_prefix) row
  = Ok (degrees_channel float_of_string row <$>
          ["joint_1"; "joint_2"; "joint_3"; "joint_4"; "joint_5"; "joint_6";
           "joint_7"; "Slider 22"; "Slider 23"]).
Proof.
  split.
  - intros name config. unfold init. case_decide.
    + intros Hin%elem_of_list_to_map_2. by apply (base_joint_config_degrees _ Hin).
    + intros Hin%elem_of_list_to_map_2.
      apply list_elem_of_fmap in Hin as (e0 & [= -> ->] & He0).
      by apply base_joint_config_degrees.
  - destruct (init_entries joint_prefix) as (entries & Hnames & Hcols & Hentries).
    unfold get_joint_values_from_row. rewrite Hnames.
    rewrite (row_loop _ row entries []) by done. simpl. f_equal.
    change ((λ e : string * joint_entry,
               degrees_channel float_of_string row (csv_column e.2)) <$> entries)
      with ((degrees_channel float_of_string row ∘ csv_column ∘ snd) <$> entries).
    rewrite !list_fmap_compose. by rewrite Hcols.
Qed.
End publisher.

Lemma publisher_converts_all_as_degrees_witness :
  Publisher.get_joint_values_from_row (λ _, None) (Publisher.init "")
    {[ "joint_1" := Publisher.CStr "n/a"; "Slider 22" := Publisher.CNum 1 ]}
  = Ok [0; 0; 0; 0; 0; 0; 0; 1 * PI / 180; 0]%R.
Proof.
  destruct (publisher_converts_all_as_degrees (λ _, None) ""
              {[ "joint_1" := Publisher.CStr "n/a"; "Slider 22" := Publisher.CNum 1 ]})
    as [_ ->].
  reflexivity.
Defined.

(** ** Keyframes outside the trajectory *)

Section out_of_range.
Context (a : animator).
Let K := sorted_keys (keyframes a).
Let n := total_frames a.
Hypothesis Hregistry : registry_ok a.

Lemma joint_step_ok_or_raise (s e f : Z) (joint : string) (d : gmap string (list R)) :
  (s, e) ∈ segments K → joint ∈ all_joints → data_ok n d →
  (∃ d', joint_step a K s e f joint d = Ok d' ∧ data_ok n d') ∨
  joint_step a K s e f joint d = Raise IndexError.
Proof.
  intros Hseg Hjoint Hd.
  destruct (segments_spec _ _ _ (sorted_keys_lt _) Hseg) as (Hs & He & _).
  apply elem_of_sorted_keys in Hs, He.
  destruct (cell_value_Ok a K s e f joint) as [v Hv]; [by auto..|].
  destruct (Hd joint Hjoint) as (col & Hcol & Hlen).
  unfold joint_step. rewrite Hv. simpl. rewrite (getitem_Some _ _ _ Hcol). simpl.
  unfold array_set, np_index.
  repeat case_bool_decide; simpl; [left|left|by right];
    (eexists; split; [done|]; apply data_ok_insert; [done|by rewrite length_insert]).
Qed.

Lemma joint_step_raise (s e f : Z) (joint : string) (d : gmap string (list R)) :
  (s, e) ∈ segments K → joint ∈ all_joints → data_ok n d →
  n ≤ f ∨ f < - n →
  joint_step a K s e f joint d = Raise IndexError.
Proof.
  intros Hseg Hjoint Hd Hout.
  destruct (segments_spec _ _ _ (sorted_keys_lt _) Hseg) as (Hs & He & _).
  apply elem_of_sorted_keys in Hs, He.
  destruct (cell_value_Ok a K s e f joint) as [v Hv]; [by auto..|].
  destruct (Hd joint Hjoint) as (col & Hcol & Hlen).
  unfold joint_step. rewrite Hv. simpl. rewrite (getitem_Some _ _ _ Hcol). simpl.
  rewrite array_set_out; [done|lia].
Qed.

Lemma frame_step_ok_or_raise (s e f : Z) (d : gmap string (list R)) :
  (s, e) ∈ segments K → data_ok n d →
  (∃ d', frame_step a K s e f d = Ok d' ∧ data_ok n d') ∨
  frame_step a K s e f d = Raise IndexError.
Proof.
  intros Hseg Hd. apply (for_each_ok_or_raise _ (data_ok n)); [|done].
  intros joint t Hjoint Ht. by apply joint_step_ok_or_raise.
Qed.

Lemma frame_step_raise (s e f : Z) (d : gmap string (list R)) :
  (s, e) ∈ segments K → data_ok n d → n ≤ f ∨ f < - n →
  frame_step a K s e f d = Raise IndexError.
Proof.
  intros Hseg Hd Hout. apply (for_each_raise _ (data_ok n)); [| |done].
  - intros joint t Hjoint Ht. by apply joint_step_ok_or_raise.
  - exists "joint_1". split; [apply elem_of_all_joints; auto|].
    intros t Ht. apply joint_step_raise; [done| |done..].
    apply elem_of_all_joints; auto.
Qed.

Lemma segment_step_ok_or_raise (seg : Z * Z) (d : gmap string (list R)) :
  seg ∈ segments K → data_ok n d →
  (∃ d', segment_step a K seg d = Ok d' ∧ data_ok n d') ∨
  segment_step a K seg d = Raise IndexError.
Proof.
  destruct seg as [s e]. intros Hseg Hd.
  apply (for_each_ok_or_raise _ (data_ok n)); [|done].
  intros f t Hf Ht. by apply frame_step_ok_or_raise.
Qed.

Lemma segment_step_raise (seg : Z * Z) (f : Z) (d : gmap string (list R)) :
  seg ∈ segments K → data_ok n d → seg.1 ≤ f ≤ seg.2 → n ≤ f ∨ f < - n →
  segment_step a K seg d = Raise IndexError.
Proof.
  destruct seg as [s e]. intros Hseg Hd Hf Hout.
  apply (for_each_raise _ (data_ok n)); [| |done].
  - intros f' t Hf' Ht. by apply frame_step_ok_or_raise.
  - exists f. split; [apply elem_of_seqZ; simpl in *; lia|].
    intros t Ht. by apply frame_step_raise.
Qed.

Lemma segments_raise (f : Z) (d : gmap string (list R)) :
  (2 ≤ length K)%nat → f ∈ K → n ≤ f ∨ f < - n → data_ok n d →
  for_each (segment_step a K) (segments K) d = Raise IndexError.
Proof.
  intros Hlen Hf Hout Hd. apply (for_each_raise _ (data_ok n)); [| |done].
  - intros seg t Hseg Ht. by apply segment_step_ok_or_raise.
  - destruct (segments_cover K f Hlen Hf) as (seg & Hseg & Hends).
    exists seg. split; [done|]. intros t Ht.
    apply (segment_step_raise seg f); [done..| |done].
    destruct seg as [s e].
    destruct (segments_spec _ _ _ (sorted_keys_lt _) Hseg) as (_ & _ & Hlt & _).
    simpl in *. lia.
Qed.
End out_of_range.

(** A keyframe at a frame the arrays cannot index makes generation raise
    [IndexError]. *)
Lemma generate_movement_out_of_range (a : animator) (f : Z) :
  well_formed a → is_Some (keyframes a !! f) →
  total_frames a ≤ f ∨ f < - total_frames a →
  generate_movement a = Raise IndexError.
Proof.
  intros (Hn & Hreg & Hdata) [m Hf] Hout.
  assert (keyframes a ≠ ∅) as Hne.
  { intros Hempty. rewrite Hempty, lookup_empty in Hf. done. }
  unfold generate_movement. rewrite decide_False by (by rewrite sorted_keys_nil).
  unfold generate_with_keyframes, assemble.
  destruct (normalize_Ok (total_frames a) (keyframes a)) as [kf' Hnorm].
  rewrite Hnorm. simpl.
  destruct (normalize_spec _ _ _ Hnorm) as (H0 & Hl & _ & _ & Hkeep & _).
  rewrite (segments_raise (set_keyframes a kf') Hreg f); [done| | |done|done].
  - simpl. apply elem_of_sorted_keys in H0, Hl.
    assert (f ∈ sorted_keys kf') as HfK.
    { apply elem_of_sorted_keys. rewrite (Hkeep f m Hf). eauto. }
    pose proof (sorted_keys_NoDup kf') as Hnd.
    destruct (sorted_keys kf') as [|x [|y l]]; simpl; [| |lia].
    + by apply elem_of_nil in H0.
    + apply list_elem_of_singleton in H0, Hl, HfK. lia.
  - simpl. apply elem_of_sorted_keys. rewrite (Hkeep f m Hf). eauto.
Qed.




(** * Further properties of the animator *)

(** ** Segments *)

Lemma length_segments (l : list Z) : length (segments l) = (length l - 1)%nat.
Proof.
  unfold segments. rewrite length_zip_with. destruct l; cbn [tail length]; lia.
Qed.

Lemma segment_t_range (s e f : Z) :
  s < e → s ≤ f ≤ e → (0 <= segment_t s e f <= 1)%R.
Proof.
  intros Hlt Hf. unfold segment_t. rewrite decide_True by lia.
  assert (0 < IZR (e - s))%R as Hpos by (apply IZR_lt; lia).
  assert (0 <= IZR (f - s))%R as Hnum by (apply IZR_le; lia).
  assert (IZR (f - s) <= IZR (e - s))%R as Hle by (apply IZR_le; lia).
  split.
  - apply Rmult_le_pos; [done|]. left. by apply Rinv_0_lt_compat.
  - apply (Rmult_le_reg_r (IZR (e - s))); [done|].
    unfold Rdiv. rewrite Rmult_assoc, Rinv_l by lra. lra.
Qed.

(** X1. The segments [generate_movement] walks are the consecutive pairs of
    the store's frames in increasing order: one fewer than there are
    keyframes, each with [start < end] and no keyframe strictly between, so
    the [t = 0] branch for [start_frame == end_frame] is never taken and
    [t] runs through [0, 1] over the frames of the segment. *)
Theorem segments_are_consecutive_keyframes (kf : gmap Z (gmap string R)) :
  length (segments (sorted_keys kf)) = (size kf - 1)%nat ∧
  ∀ s e,
    (s, e) ∈ segments (sorted_keys kf) →
    is_Some (kf !! s) ∧ is_Some (kf !! e) ∧ s < e ∧
    (∀ k, is_Some (kf !! k) → ¬ (s < k < e)) ∧
    ∀ f, segment_t s e f = (IZR (f - s) / IZR (e - s))%R ∧
         (s ≤ f ≤ e → (0 <= segment_t s e f <= 1)%R).
Proof.
  split.
  - rewrite length_segments. f_equal.
    rewrite (Permutation_length (sorted_keys_perm kf)), length_fmap.
    apply length_map_to_list.
  - intros s e Hseg.
    destruct (segments_spec _ _ _ (sorted_keys_lt _) Hseg) as (Hs & He & Hlt & Hmid).
    rewrite !elem_of_sorted_keys in Hs, He.
    split_and!; [done..| |].
    + intros k Hk Hbetween. apply elem_of_sorted_keys in Hk.
      destruct (Hmid k Hk); lia.
    + intros f. split; [|by apply segment_t_range].
      unfold segment_t. rewrite decide_True by lia. done.
Qed.

Lemma segments_are_consecutive_keyframes_witness :
  (0 <= segment_t 0 100 40 <= 1)%R.
Proof.
  destruct (segments_are_consecutive_keyframes (keyframes hold_then_omit))
    as [_ Hsegs].
  destruct (Hsegs 0 100) as (_ & _ & _ & _ & Ht).
  - rewrite hold_then_omit_frames. unfold segments. simpl. left.
  - apply (Ht 40). lia.
Defined.

(** ** The eased base value *)

(** X2. Whatever the frame, the eased base value stays between the start
    value and the end value of the segment: the cosine ease never
    overshoots. *)
Theorem base_value_no_overshoot (start_frame end_frame frame : Z) (start_val end_val : R) :
  (Rmin start_val end_val
   <= base_value start_val end_val (ease (segment_t start_frame end_frame frame))
   <= Rmax start_val end_val)%R.
Proof.
  pose proof (ease_bounds (segment_t start_frame end_frame frame)) as [H0 H1].
  unfold base_value, Rmin, Rmax.
  destruct (Rle_dec start_val end_val) as [Hle|Hgt]; split; nra.
Qed.

Lemma ease_monotone (t1 t2 : R) :
  (0 <= t1)%R → (t1 <= t2)%R → (t2 <= 1)%R → (ease t1 <= ease t2)%R.
Proof.
  intros H0 Hle H1. unfold ease. pose proof PI_RGT_0 as Hpi.
  assert (cos (t2 * PI) <= cos (t1 * PI))%R; [|lra].
  apply cos_decr_1; nra.
Qed.

(** X3. Inside a segment the eased base value moves one way only: from one
    frame to a later one it does not decrease when the end value is at
    least the start value, and does not increase when it is at most the
    start value. *)
Theorem base_value_monotone (start_frame end_frame f1 f2 : Z) (start_val end_val : R) :
  start_frame < end_frame →
  start_frame ≤ f1 → f1 ≤ f2 → f2 ≤ end_frame →
  ((start_val <= end_val)%R →
     (base_value start_val end_val (ease (segment_t start_frame end_frame f1))
      <= base_value start_val end_val (ease (segment_t start_frame end_frame f2)))%R) ∧
  ((end_val <= start_val)%R →
     (base_value start_val end_val (ease (segment_t start_frame end_frame f2))
      <= base_value start_val end_val (ease (segment_t start_frame end_frame f1)))%R).
Proof.
  intros Hlt Hs H12 He.
  assert (ease (segment_t start_frame end_frame f1)
          <= ease (segment_t start_frame end_frame f2))%R as Hease.
  { apply ease_monotone.
    - apply segment_t_range; lia.
    - unfold segment_t. rewrite !decide_True by lia.
      assert (0 < IZR (end_frame - start_frame))%R as Hpos by (apply IZR_lt; lia).
      assert (IZR (f1 - start_frame) <= IZR (f2 - start_frame))%R as Hle
        by (apply IZR_le; lia).
      unfold Rdiv. apply Rmult_le_compat_r; [|done].
      left. by apply Rinv_0_lt_compat.
    - apply segment_t_range; lia. }
  unfold base_value. split; intros Hdir; nra.
Qed.

Lemma base_value_monotone_witness :
  (base_value 0 30 (ease (segment_t 0 50 10))
   <= base_value 0 30 (ease (segment_t 0 50 20)))%R.
Proof.
  apply (base_value_monotone 0 50 10 20 0 30); [lia..|lra].
Defined.

(** ** Oscillation *)

Lemma speed_factor_bounds (s e : Z) (sv ev : R) :
  (0.1 <= speed_factor s e sv ev <= 1)%R.
Proof.
  unfold speed_factor. split; [apply Rmax_l|].
  assert (0 < IZR (Z.max 1 (e - s)))%R as Hlen by (apply IZR_lt; lia).
  assert (0 <= Rabs (ev - sv) / IZR (Z.max 1 (e - s)))%R as Hspeed.
  { apply Rmult_le_pos; [apply Rabs_pos|]. left. by apply Rinv_0_lt_compat. }
  apply Rmax_lub; lra.
Qed.

(** Outside the cases that zero it, the oscillation is [get_oscillation] at
    the segment's damping factor. *)
Lemma oscillation_term_damped (a : animator) (K : list Z) (s e f : Z) (joint : string)
    (sv ev factor : R) :
  is_precision_zone K f = false →
  osc_factors a !! joint = Some factor → (0 < factor)%R →
  is_slider joint && bool_decide (Rabs (ev - sv) < 0.001)%R = false →
  oscillation_term a K s e f joint sv ev
  = Ok (get_oscillation a joint f (speed_factor s e sv ev)).
Proof.
  intros Hzone Hfactor Hpos Hmoving. unfold oscillation_term.
  rewrite Hzone, (getitem_Some _ _ _ Hfactor). simpl.
  rewrite decide_True by done. by rewrite Hmoving.
Qed.

(** X4. The damping factor of a segment lies in [0.1, 1]; of two segments
    the one with the larger movement per frame has the smaller or equal
    factor; and a joint that does not move over the segment gets the full
    factor 1. *)
Theorem speed_damping (s e s' e' : Z) (sv ev sv' ev' : R) :
  (0.1 <= speed_factor s e sv ev <= 1)%R ∧
  ((Rabs (ev - sv) / IZR (Z.max 1 (e - s))
    <= Rabs (ev' - sv') / IZR (Z.max 1 (e' - s')))%R →
   (speed_factor s' e' sv' ev' <= speed_factor s e sv ev)%R) ∧
  (ev = sv → speed_factor s e sv ev = 1%R).
Proof.
  split; [apply speed_factor_bounds|]. split.
  - intros Hspeed. unfold speed_factor. apply Rle_max_compat_l. lra.
  - intros ->. unfold speed_factor. rewrite Rminus_diag, Rabs_R0.
    unfold Rdiv. rewrite Rmult_0_l. rewrite Rmax_right by lra. lra.
Qed.

Lemma speed_damping_witness :
  (speed_factor 0 10 0 100 <= speed_factor 0 100 0 100)%R.
Proof.
  apply (speed_damping 0 100 0 10 0 100 0 100).
  change (Z.max 1 (100 - 0)) with 100. change (Z.max 1 (10 - 0)) with 10.
  rewrite Rminus_0_r, Rabs_pos_eq by lra. lra.
Defined.

Lemma Rabs_get_oscillation (a : animator) (joint : string) (f : Z) (sf : R)
    (p : osc_param) (factor : R) :
  osc_params a !! joint = Some p → osc_factors a !! joint = Some factor →
  (Rabs (get_oscillation a joint f sf)
   <= Rabs (base_amp p) * Rabs factor * Rabs (global_osc_factor a) * Rabs sf)%R.
Proof.
  intros Hp Hfactor. unfold get_oscillation. rewrite Hp, Hfactor. simpl.
  rewrite !Rabs_mult.
  pose proof (SIN_bound (IZR f * freq p + phase p)) as [Hlo Hhi].
  assert (Rabs (sin (IZR f * freq p + phase p)) <= 1)%R as Hsin
    by (apply Rabs_le; lra).
  pose proof (Rabs_pos (base_amp p)). pose proof (Rabs_pos factor).
  pose proof (Rabs_pos (global_osc_factor a)). pose proof (Rabs_pos sf).
  repeat apply Rmult_le_compat_r; try done.
  rewrite <- (Rmult_1_r (Rabs (base_amp p))) at 2.
  by apply Rmult_le_compat_l.
Qed.

(** X5. The value a segment pass writes differs from the eased base value by
    at most [|base_amp| * factor * |global factor|]: the sine is at most 1
    in size and the damping factor at most 1. *)
Theorem oscillation_bounded (a : animator) (K : list Z) (s e f : Z) (joint : string)
    (p : osc_param) (factor sv ev v : R) :
  osc_params a !! joint = Some p → osc_factors a !! joint = Some factor →
  start_value a s joint = Ok sv → end_value a e joint sv = Ok ev →
  cell_value a K s e f joint = Ok v →
  (Rabs (v - base_value sv ev (ease (segment_t s e f)))
   <= Rabs (base_amp p) * Rabs factor * Rabs (global_osc_factor a))%R.
Proof.
  intros Hp Hfactor Hsv Hev. unfold cell_value. rewrite Hsv. simpl. rewrite Hev. simpl.
  pose proof (Rabs_pos (base_amp p)). pose proof (Rabs_pos factor).
  pose proof (Rabs_pos (global_osc_factor a)).
  assert (0 <= Rabs (base_amp p) * Rabs factor * Rabs (global_osc_factor a))%R as Hnonneg.
  { repeat apply Rmult_le_pos; done. }
  intros Hv. apply bind_Ok in Hv as (osc & Hosc & [= <-]).
  replace (base_value sv ev (ease (segment_t s e f)) + osc
           - base_value sv ev (ease (segment_t s e f)))%R with osc by lra.
  unfold oscillation_term in Hosc.
  destruct (is_precision_zone K f); [injection Hosc as <-; by rewrite Rabs_R0|].
  rewrite (getitem_Some _ _ _ Hfactor) in Hosc. simpl in Hosc.
  destruct (decide (0 < factor)%R); [|injection Hosc as <-; by rewrite Rabs_R0].
  destruct (is_slider joint && _); injection Hosc as <-; [by rewrite Rabs_R0|].
  etrans; [by apply Rabs_get_oscillation|].
  fold (speed_factor s e sv ev).
  pose proof (speed_factor_bounds s e sv ev) as [Hlo Hhi].
  rewrite (Rabs_pos_eq (speed_factor s e sv ev)) by lra.
  rewrite <- (Rmult_1_r (Rabs (base_amp p) * Rabs factor * Rabs (global_osc_factor a))) at 2.
  by apply Rmult_le_compat_l.
Qed.

Lemma oscillation_bounded_witness :
  ∃ v, cell_value two_keyframes [0; 399] 0 399 200 "joint_1" = Ok v ∧
       (Rabs (v - base_value 5 7 (ease (segment_t 0 399 200)))
        <= Rabs 3.0 * Rabs 1.0 * Rabs 1)%R.
Proof.
  assert (cell_value two_keyframes [0; 399] 0 399 200 "joint_1"
          = Ok (base_value 5 7 (ease (segment_t 0 399 200))
                + get_oscillation two_keyframes "joint_1" 200 (speed_factor 0 399 5 7))%R)
    as Hv.
  { unfold cell_value.
    change (start_value two_keyframes 0 "joint_1") with (Ok 5%R).
    cbn [mbind result_bind].
    change (end_value two_keyframes 399 "joint_1" 5) with (Ok 7%R).
    cbn [mbind result_bind].
    rewrite (oscillation_term_damped _ _ _ _ _ _ _ _ 1.0%R); [done..|lra|done]. }
  eexists. split; [exact Hv|].
  apply (oscillation_bounded two_keyframes [0; 399] 0 399 200 "joint_1"
           (OscParam 0.08 3.0 0) 1.0 5 7); done.
Defined.

Lemma cell_value_without_oscillation (a : animator) (K : list Z) (s e f : Z)
    (joint : string) (sv ev : R) :
  start_value a s joint = Ok sv → end_value a e joint sv = Ok ev →
  oscillation_term a K s e f joint sv ev = Ok 0%R →
  cell_value a K s e f joint = Ok (base_value sv ev (ease (segment_t s e f))).
Proof.
  intros Hsv Hev Hosc. unfold cell_value. rewrite Hsv. simpl. rewrite Hev. simpl.
  rewrite Hosc. simpl. f_equal. lra.
Qed.

Lemma get_oscillation_global_0 (a : animator) (joint : string) (f : Z) (sf : R) :
  global_osc_factor a = 0%R → get_oscillation a joint f sf = 0%R.
Proof.
  intros Hg. unfold get_oscillation. destruct (osc_params a !! joint); [|done].
  rewrite Hg. lra.
Qed.

Lemma oscillation_term_global_0 (a : animator) (K : list Z) (s e f : Z)
    (joint : string) (sv ev : R) :
  global_osc_factor a = 0%R → is_Some (osc_factors a !! joint) →
  oscillation_term a K s e f joint sv ev = Ok 0%R.
Proof.
  intros Hg [factor Hfactor]. unfold oscillation_term.
  destruct (is_precision_zone K f); [done|].
  rewrite (getitem_Some _ _ _ Hfactor). simpl.
  destruct (decide (0 < factor)%R); [|done].
  destruct (is_slider joint && _); [done|].
  by rewrite get_oscillation_global_0.
Qed.

Lemma oscillation_term_factor_nonpos (a : animator) (K : list Z) (s e f : Z)
    (joint : string) (sv ev factor : R) :
  osc_factors a !! joint = Some factor → (factor <= 0)%R →
  oscillation_term a K s e f joint sv ev = Ok 0%R.
Proof.
  intros Hfactor Hle. unfold oscillation_term.
  destruct (is_precision_zone K f); [done|].
  rewrite (getitem_Some _ _ _ Hfactor). simpl.
  rewrite decide_False; [done|lra].
Qed.

(** X6. Setting the global factor, the factor of every joint, or the factor
    of one joint to a number that is not positive switches oscillation off:
    every value a segment pass then computes for such a joint is the eased
    base value alone, at every frame. *)
Theorem nonpositive_factor_silences (a : animator) (x : R) (K : list Z) (s e f : Z)
    (joint : string) (sv ev : R) :
  (x <= 0)%R → is_Some (osc_factors a !! joint) →
  start_value a s joint = Ok sv → end_value a e joint sv = Ok ev →
  cell_value (set_global_oscillation_factor a x).1 K s e f joint
    = Ok (base_value sv ev (ease (segment_t s e f))) ∧
  cell_value (set_all_joints_oscillation a x).1 K s e f joint
    = Ok (base_value sv ev (ease (segment_t s e f))) ∧
  cell_value (set_joint_oscillation_factor a joint x).1 K s e f joint
    = Ok (base_value sv ev (ease (segment_t s e f))).
Proof.
  intros Hx [factor Hfactor] Hsv Hev.
  assert (Rmax 0.0 x = 0%R) as Hmax.
  { replace 0.0%R with 0%R by lra. apply Rmax_left. lra. }
  split_and!.
  - apply cell_value_without_oscillation; [done..|].
    apply oscillation_term_global_0; [done|]. simpl. eauto.
  - apply cell_value_without_oscillation; [done..|].
    apply (oscillation_term_factor_nonpos _ K s e f joint sv ev 0); [|lra].
    cbn [set_all_joints_oscillation fst set_osc_factors osc_factors].
    by rewrite lookup_fmap, Hfactor, Hmax.
  - unfold set_joint_oscillation_factor. rewrite Hfactor.
    apply cell_value_without_oscillation; [done..|].
    apply (oscillation_term_factor_nonpos _ K s e f joint sv ev 0); [|lra].
    cbn [fst set_osc_factors osc_factors].
    by rewrite lookup_insert_eq, Hmax.
Qed.

Lemma nonpositive_factor_silences_witness :
  cell_value (set_global_oscillation_factor two_keyframes 0).1 [0; 399] 0 399 200
             "joint_1"
  = Ok (base_value 5 7 (ease (segment_t 0 399 200))).
Proof.
  apply (nonpositive_factor_silences two_keyframes 0 [0; 399] 0 399 200 "joint_1" 5 7);
    [lra|simpl; eauto|done|done].
Defined.

(** X7. A segment of fewer than 20 frames between two keyframes carries no
    oscillation at all: each of its frames is less than 10 frames from one
    of its two ends, so every value written is the eased base value. *)
Theorem short_segment_is_silent (a : animator) (K : list Z) (s e f : Z)
    (joint : string) (sv ev : R) :
  s ∈ K → e ∈ K → e - s < 20 → s ≤ f ≤ e →
  start_value a s joint = Ok sv → end_value a e joint sv = Ok ev →
  cell_value a K s e f joint = Ok (base_value sv ev (ease (segment_t s e f))).
Proof.
  intros Hs He Hshort Hf Hsv Hev.
  apply cell_value_without_oscillation; [done..|].
  unfold oscillation_term.
  assert (is_precision_zone K f = true) as ->; [|done].
  apply is_precision_zone_spec.
  destruct (decide (f - s < 10)) as [Hnear|Hfar].
  - exists s. split; [done|]. lia.
  - exists e. split; [done|]. lia.
Qed.

Lemma short_segment_is_silent_witness :
  cell_value (add_keyframe two_keyframes 15 {[ "joint_1" := 6%R ]}) [0; 15; 399]
             0 15 10 "joint_1"
  = Ok (base_value 5 6 (ease (segment_t 0 15 10))).
Proof.
  apply short_segment_is_silent; [set_solver|set_solver|lia|lia|done|done].
Defined.


(** ** The trajectory before smoothing, cell by cell *)

(** The last step that writes a cell decides it: [x] establishes [P] and
    the steps after it keep [P]. *)
Lemma for_each_last {A S : Type} (step : A → S → result S) (I P : S → Prop)
    (l1 l2 : list A) (x : A) :
  (∀ (y : A) s, y ∈ (l1 ++ x :: l2)%list → I s → ∃ s', step y s = Ok s' ∧ I s') →
  (∀ s s', I s → step x s = Ok s' → P s') →
  (∀ y s s', y ∈ l2 → I s → P s → step y s = Ok s' → P s') →
  ∀ s, I s → ∃ s', for_each step (l1 ++ x :: l2)%list s = Ok s' ∧ I s' ∧ P s'.
Proof.
  intros Hrun Hx Hafter. induction l1 as [|y l1 IH]; intros s HI.
  - simpl. destruct (Hrun x s) as (s1 & Hs1 & HI1); [left|done|].
    rewrite Hs1. simpl. pose proof (Hx s s1 HI Hs1) as HP1.
    clear Hx Hs1 HI. revert s1 HI1 HP1.
    induction l2 as [|y l2 IH2]; intros s1 HI1 HP1; simpl; [by eauto|].
    destruct (Hrun y s1) as (s2 & Hs2 & HI2); [right; left|done|].
    rewrite Hs2. simpl. apply IH2.
    + intros z t Hz. apply Hrun. simpl in *.
      apply elem_of_cons in Hz as [->|Hz]; [left|right; by right].
    + intros z t t' Hz. apply Hafter. by right.
    + done.
    + apply (Hafter y s1 s2); [left|done..].
  - simpl. destruct (Hrun y s) as (s1 & Hs1 & HI1); [left|done|].
    rewrite Hs1. simpl. apply IH; [|done].
    intros z t Hz. apply Hrun. by right.
Qed.

(** Consecutive pairs of an increasing list follow one another. *)
Lemma segments_ordered (l : list Z) :
  StronglySorted Z.lt l →
  StronglySorted (λ seg1 seg2 : Z * Z, seg1.2 ≤ seg2.1) (segments l).
Proof.
  induction 1 as [|x l Hl IH Hx]; [constructor|].
  destruct l as [|y l]; [constructor|].
  rewrite segments_cons. constructor; [done|].
  apply Forall_forall. intros [s e] Hseg. simpl.
  destruct (segments_spec _ _ _ Hl Hseg) as (Hs & _).
  apply elem_of_cons in Hs as [->|Hs]; [lia|].
  apply StronglySorted_inv in Hl as [_ Hy].
  rewrite Forall_forall in Hy. specialize (Hy s Hs). lia.
Qed.

Section last_write.
Context (a : animator).
Let K := sorted_keys (keyframes a).
Let n := total_frames a.
Hypothesis Hregistry : registry_ok a.
Hypothesis Hrange : keyframes_in_range a.
Context (k0 : Z) (j0 : string).
Hypothesis Hk0 : 0 ≤ k0.
Hypothesis Hj0 : j0 ∈ all_joints.

(** One segment pass and the cell [(j0, k0)]: the pass leaves the cell alone
    unless the segment contains [k0], and then leaves in it what it
    computes there. *)
Lemma segment_step_cell (seg : Z * Z) (d : gmap string (list R)) (v0 : R) :
  seg ∈ segments K → data_ok n d →
  (seg.1 ≤ k0 ≤ seg.2 → cell_value a K seg.1 seg.2 k0 j0 = Ok v0) →
  ∃ d', segment_step a K seg d = Ok d' ∧ data_ok n d' ∧
        (cell_is d j0 k0 v0 → cell_is d' j0 k0 v0) ∧
        (seg.1 ≤ k0 ≤ seg.2 → cell_is d' j0 k0 v0).
Proof.
  destruct seg as [s e]. simpl. intros Hseg Hd Hv0. unfold segment_step. simpl.
  destruct (segments_spec _ _ _ (sorted_keys_lt _) Hseg) as (_ & _ & Hlt & _).
  destruct (for_each_touch (frame_step a K s e) (data_ok n)
              (λ d, cell_is d j0 k0 v0) (λ f, f = k0) (seqZ s (e + 1 - s)))
    with (s := d) as (d' & Hrun & Hd' & Hkeep & Htouch); [|done|].
  { intros f t Hf Ht. apply elem_of_seqZ in Hf. unfold frame_step.
    destruct (for_each_touch (joint_step a K s e f) (data_ok n)
                (λ d, cell_is d j0 k0 v0) (λ joint, joint = j0 ∧ f = k0) all_joints)
      with (s := t) as (t' & Hrun & Ht' & Hkeep & Htouch); [|done|].
    { intros joint u Hjoint Hu.
      destruct (joint_step_run a Hregistry Hrange s e f joint u)
        as (v & col & Hv & Hcol & Hlen & Hfn & Hstep); [done|lia|done..|].
      eexists. split; [exact Hstep|].
      assert (joint = j0 → f = k0 →
              cell_is (<[joint := <[Z.to_nat f := v]> col]> u) j0 k0 v0) as Hhit.
      { intros -> ->.
        assert (Ok v = Ok v0) as [= ->] by (rewrite <- Hv; apply Hv0; lia).
        exists (<[Z.to_nat k0 := v0]> col). rewrite lookup_insert_eq. split; [done|].
        apply list_lookup_insert_eq. lia. }
      split_and!.
      - apply data_ok_insert; [done|]. by rewrite length_insert.
      - intros Hcell. destruct (decide (joint = j0)) as [Hjj|Hjj];
          [|by apply cell_is_insert_other_joint].
        destruct (decide (f = k0)) as [Hff|Hff]; [by auto|].
        destruct Hcell as (c & Hc & Hcv). subst joint.
        rewrite Hcol in Hc. injection Hc as <-.
        exists (<[Z.to_nat f := v]> col). rewrite lookup_insert_eq. split; [done|].
        rewrite list_lookup_insert_ne; [done|]. lia.
      - intros [Hjj Hff]. by auto. }
    exists t'. split_and!; [done..|].
    intros Hff. apply Htouch. by exists j0. }
  exists d'. split_and!; [done..|].
  intros Hin. apply Htouch. exists k0. split; [|done]. apply elem_of_seqZ. lia.
Qed.

(** The segment loop leaves in cell [(j0, k0)] what the last segment
    containing [k0] computes there. *)
Lemma segments_last_write (s e : Z) (d : gmap string (list R)) (v0 : R) :
  (s, e) ∈ segments K → s ≤ k0 ≤ e →
  (k0 = e → ∀ k, k ∈ K → k ≤ e) →
  cell_value a K s e k0 j0 = Ok v0 →
  data_ok n d →
  ∃ d', for_each (segment_step a K) (segments K) d = Ok d' ∧ data_ok n d' ∧
        cell_is d' j0 k0 v0.
Proof.
  intros Hseg Hin Hlast Hv0 Hd.
  destruct (list_elem_of_split _ _ Hseg) as (l1 & l2 & Hsplit).
  pose proof (segments_ordered _ (sorted_keys_lt (keyframes a))) as Hord.
  fold K in Hord. rewrite Hsplit in Hord.
  apply StronglySorted_app in Hord as (_ & _ & Hord).
  apply StronglySorted_inv in Hord as [_ Hl2]. rewrite Forall_forall in Hl2.
  assert (∀ seg, seg ∈ l2 → ¬ (seg.1 ≤ k0 ≤ seg.2)) as Hnot.
  { intros [s' e'] Hseg' Hin'. specialize (Hl2 _ Hseg'). simpl in *.
    assert ((s', e') ∈ segments K) as HsegK.
    { rewrite Hsplit. apply elem_of_app. right. by right. }
    destruct (segments_spec _ _ _ (sorted_keys_lt _) HsegK) as (_ & He' & Hlt' & _).
    assert (k0 = e) as Hke by lia. specialize (Hlast Hke e' He'). lia. }
  rewrite Hsplit.
  apply (for_each_last (segment_step a K) (data_ok n) (λ d, cell_is d j0 k0 v0)).
  - intros seg t Hseg' Ht.
    assert (seg ∈ segments K) as HsegK by (by rewrite Hsplit).
    destruct seg as [s' e'].
    destruct (segments_spec _ _ _ (sorted_keys_lt _) HsegK) as (Hs' & He' & _).
    apply elem_of_sorted_keys in Hs', He'.
    destruct (cell_value_Ok a K s' e' k0 j0) as [v Hv]; [by auto..|].
    destruct (segment_step_cell (s', e') t v HsegK Ht) as (t' & Hrun & Ht' & _);
      [done|]. eauto.
  - intros t t' Ht Hrun.
    destruct (segment_step_cell (s, e) t v0 Hseg Ht) as (t'' & Hrun' & _ & _ & Hhit);
      [done|].
    rewrite Hrun in Hrun'. injection Hrun' as <-. by apply Hhit.
  - intros seg t t' Hseg' Ht HP Hrun.
    assert (seg ∈ segments K) as HsegK.
    { rewrite Hsplit. apply elem_of_app. right. by right. }
    destruct (segment_step_cell seg t v0 HsegK Ht) as (t'' & Hrun' & _ & Hkeep & _).
    { intros Hin'. by destruct (Hnot seg Hseg'). }
    rewrite Hrun in Hrun'. injection Hrun' as <-. by apply Hkeep.
  - done.
Qed.
End last_write.

Lemma assemble_last_write (a : animator) :
  well_formed a → keyframes_in_range a → 2 ≤ total_frames a →
  ∃ raw,
    assemble a = Ok raw ∧
    ∀ s e f joint v,
      (s, e) ∈ segments (sorted_keys (keyframes raw)) →
      joint ∈ all_joints →
      s ≤ f < e ∨ (f = e ∧ ∀ k, is_Some (keyframes raw !! k) → k ≤ e) →
      cell_value raw (sorted_keys (keyframes raw)) s e f joint = Ok v →
      cell_is (data raw) joint f v.
Proof.
  intros Hwf Hrange Htf.
  destruct (assemble_exact a Hwf Hrange Htf) as (kf' & d' & Hnorm & Hraw & Hd' & _).
  destruct Hwf as (Hn & Hreg & Hdata).
  pose proof (normalize_in_range a kf' ltac:(lia) Hrange Hnorm) as Hrange'.
  eexists. split; [exact Hraw|].
  intros s e f joint v Hseg Hjoint Hf Hv.
  change (keyframes (set_data (set_keyframes a kf') d')) with kf' in Hseg, Hv, Hf.
  destruct (segments_spec _ _ _ (sorted_keys_lt _) Hseg) as (Hs & _ & Hlt & _).
  apply elem_of_sorted_keys in Hs.
  destruct (segments_last_write (set_keyframes a kf') Hreg Hrange' f joint) with
    (s := s) (e := e) (d := data a) (v0 := v) as (d'' & Hrun & _ & Hcell).
  - pose proof (Hrange' s Hs). lia.
  - done.
  - done.
  - lia.
  - intros Hfe k Hk. destruct Hf as [Hf|[_ Hlast]]; [lia|].
    apply Hlast. by apply elem_of_sorted_keys.
  - done.
  - done.
  - pose proof (assemble_inv a _ kf' Hnorm Hraw) as Hrun'.
    pose proof (eq_trans (eq_sym Hrun) Hrun') as [= ->]. done.
Qed.


(** X8. On a well-formed animator whose keyframes lie on frames of the
    trajectory, the segment loops leave in every cell the value computed by
    the last segment that writes it: a frame [f] with [s <= f < e] holds,
    for every registered joint, what the segment [(s, e)] computes at [f]
    (eased base value plus gated oscillation), and the last keyframe frame
    holds what the last segment computes there. *)
Theorem raw_trajectory (a : animator) :
  well_formed a → keyframes_in_range a → 2 ≤ total_frames a →
  ∃ raw,
    assemble a = Ok raw ∧
    ∀ s e f joint v,
      (s, e) ∈ segments (sorted_keys (keyframes raw)) →
      joint ∈ all_joints →
      s ≤ f < e ∨ (f = e ∧ ∀ k, is_Some (keyframes raw !! k) → k ≤ e) →
      cell_value raw (sorted_keys (keyframes raw)) s e f joint = Ok v →
      cell_is (data raw) joint f v.
Proof. apply assemble_last_write. Qed.

Lemma spec_exactness_test_keyframes (raw : animator) :
  assemble spec_exactness_test = Ok raw →
  keyframes raw = keyframes spec_exactness_test.
Proof.
  destruct spec_exactness_test_ok as (_ & _ & _ & Hnorm).
  unfold assemble. change (total_frames spec_exactness_test) with 100.
  rewrite Hnorm. cbn [mbind result_bind].
  intros Hraw. by apply bind_Ok in Hraw as (d' & _ & [= <-]).
Qed.

Lemma raw_trajectory_witness :
  ∃ raw,
    assemble spec_exactness_test = Ok raw ∧
    cell_is (data raw) "joint_1" 45 (base_value 0 30 (ease (segment_t 0 50 45))).
Proof.
  destruct spec_exactness_test_ok as (Hwf & Hrange & _ & Hnorm).
  destruct (raw_trajectory spec_exactness_test Hwf Hrange ltac:(done))
    as (raw & Hraw & Hcells).
  exists raw. split; [done|].
  pose proof (spec_exactness_test_keyframes raw Hraw) as Hkf.
  apply (Hcells 0 50).
  - rewrite Hkf, spec_exactness_test_frames. unfold segments. simpl. left.
  - apply elem_of_all_joints. auto.
  - left. lia.
  - rewrite Hkf, spec_exactness_test_frames. unfold cell_value.
    assert (start_value raw 0 "joint_1" = Ok 0%R) as ->.
    { unfold start_value. rewrite Hkf. done. }
    cbn [mbind result_bind].
    assert (end_value raw 50 "joint_1" 0 = Ok 30%R) as ->.
    { unfold end_value. rewrite Hkf. done. }
    cbn [mbind result_bind].
    unfold oscillation_term.
    assert (is_precision_zone [0; 50; 99] 45 = true) as -> by done.
    cbn [mbind result_bind]. f_equal. lra.
Defined.

(** X9. A joint that a keyframe leaves out is not held across that
    keyframe.  Up to the frame before the keyframe the trajectory before
    smoothing keeps the value the joint had at the previous keyframe; at the
    keyframe itself, when another segment starts there, the cell holds 0;
    only at the last keyframe does it keep the held value. *)
Theorem omitted_joint_at_keyframe (a : animator) :
  well_formed a → keyframes_in_range a → 2 ≤ total_frames a →
  ∃ raw,
    assemble a = Ok raw ∧
    ∀ s k ms mk joint,
      (s, k) ∈ segments (sorted_keys (keyframes raw)) →
      keyframes raw !! s = Some ms → keyframes raw !! k = Some mk →
      mk !! joint = None → joint ∈ all_joints →
      (s < k - 1 → cell_is (data raw) joint (k - 1) (dict_get ms joint 0)) ∧
      (∀ e, (k, e) ∈ segments (sorted_keys (keyframes raw)) →
            cell_is (data raw) joint k 0) ∧
      ((∀ k', is_Some (keyframes raw !! k') → k' ≤ k) →
       cell_is (data raw) joint k (dict_get ms joint 0)).
Proof.
  intros Hwf Hrange Htf.
  destruct (assemble_last_write a Hwf Hrange Htf) as (raw & Hraw & Hcells).
  exists raw. split; [done|].
  intros s k ms mk joint Hseg Hs Hk Hjoint Hreg.
  destruct (segments_spec _ _ _ (sorted_keys_lt _) Hseg) as (HsK & HkK & Hlt & _).
  split_and!.
  - intros Hprev. apply (Hcells s k); [done|done|left; lia|].
    unfold cell_value, start_value, end_value, oscillation_term.
    rewrite (getitem_Some _ _ _ Hs), (getitem_Some _ _ _ Hk). simpl.
    assert (is_precision_zone (sorted_keys (keyframes raw)) (k - 1) = true) as ->.
    { apply is_precision_zone_spec. exists k. split; [done|]. lia. }
    simpl. rewrite (dict_get_None mk) by done.
    rewrite base_value_hold. f_equal. lra.
  - intros e Hnext.
    destruct (segments_spec _ _ _ (sorted_keys_lt _) Hnext) as (_ & HeK & Hlt' & _).
    apply elem_of_sorted_keys in HeK.
    apply (Hcells k e); [done|done|left; lia|].
    rewrite (cell_value_at_start _ _ _ _ _ mk) by done.
    by rewrite dict_get_None.
  - intros Hlast. apply (Hcells s k); [done|done|right; by split|].
    rewrite (cell_value_at_end _ _ _ _ _ ms mk) by (done || lia).
    by rewrite (dict_get_None mk).
Qed.

Lemma hold_then_omit_ok :
  well_formed hold_then_omit ∧ keyframes_in_range hold_then_omit ∧
  normalize 400 (keyframes hold_then_omit) = Ok (keyframes hold_then_omit).
Proof.
  split_and!.
  - repeat apply add_keyframe_well_formed. by apply init_well_formed.
  - intros k Hk. apply elem_of_sorted_keys in Hk.
    rewrite hold_then_omit_frames, !elem_of_cons, elem_of_nil in Hk.
    change (total_frames hold_then_omit) with 400. lia.
  - apply normalize_present; simpl; eauto.
Qed.

Lemma omitted_joint_at_keyframe_witness :
  ∃ raw,
    assemble hold_then_omit = Ok raw ∧
    cell_is (data raw) "joint_1" 99 5 ∧ cell_is (data raw) "joint_1" 100 0.
Proof.
  destruct hold_then_omit_ok as (Hwf & Hrange & Hnorm).
  destruct (omitted_joint_at_keyframe hold_then_omit Hwf Hrange ltac:(done))
    as (raw & Hraw & Hcells).
  exists raw. split; [done|].
  assert (keyframes raw = keyframes hold_then_omit) as Hkf.
  { pose proof Hraw as Hraw'. unfold assemble in Hraw'.
    change (total_frames hold_then_omit) with 400 in Hraw'.
    rewrite Hnorm in Hraw'. cbn [mbind result_bind] in Hraw'.
    by apply bind_Ok in Hraw' as (d' & _ & [= <-]). }
  destruct (Hcells 0 100 {[ "joint_1" := 5%R ]} {[ "joint_2" := 1%R ]} "joint_1")
    as (Hbefore & Hat & _).
  - rewrite Hkf, hold_then_omit_frames. unfold segments. simpl. left.
  - by rewrite Hkf.
  - by rewrite Hkf.
  - done.
  - apply elem_of_all_joints. auto.
  - split.
    + apply Hbefore. lia.
    + apply (Hat 399). rewrite Hkf, hold_then_omit_frames. unfold segments. simpl.
      right. left.
Defined.

(** ** What generation overwrites and what it keeps *)

(** Every frame between the first and the last keyframe has a segment that
    writes it last. *)
Lemma segments_writer (l : list Z) (x z f : Z) :
  StronglySorted Z.lt l → head l = Some x → z ∈ l → (∀ k, k ∈ l → k ≤ z) →
  x < z → x ≤ f ≤ z →
  ∃ s e, (s, e) ∈ segments l ∧ (s ≤ f < e ∨ (f = e ∧ e = z)).
Proof.
  intros Hl. revert x. induction Hl as [|y l Hl IH Hy]; intros x Hhead Hz Hmax Hxz Hf.
  { by apply elem_of_nil in Hz. }
  simpl in Hhead. injection Hhead as ->.
  apply elem_of_cons in Hz as [->|Hz]; [lia|].
  destruct l as [|y' l]; [by apply elem_of_nil in Hz|].
  rewrite segments_cons.
  destruct (decide (f < y')) as [Hlt|Hge].
  { exists x, y'. split; [left|left; lia]. }
  destruct (decide (y' = z)) as [->|Hne].
  { exists x, z. split; [left|right; lia]. }
  assert (y' ≤ z) by (apply Hmax; right; left).
  destruct (IH y') as (s & e & Hseg & Hwrites); [done|done| |lia|lia|].
  - intros k Hk. apply Hmax. by right.
  - exists s, e. split; [by right|done].
Qed.

Section untouched_keys.
Context (a : animator) (key : string).
Let K := sorted_keys (keyframes a).
Let n := total_frames a.
Hypothesis Hregistry : registry_ok a.
Hypothesis Hrange : keyframes_in_range a.
Hypothesis Hkey : key ∉ all_joints.

(** The segment loops write joint columns only. *)
Lemma segments_other_keys (d d' : gmap string (list R)) :
  data_ok n d →
  for_each (segment_step a K) (segments K) d = Ok d' → d' !! key = d !! key.
Proof.
  intros Hd Hrun.
  destruct (for_each_touch (segment_step a K) (data_ok n)
              (λ t, t !! key = d !! key) (λ _, False) (segments K))
    with (s := d) as (d'' & Hrun' & _ & Hkeep & _); [|done|].
  { intros [s e] t Hseg Ht. unfold segment_step. simpl.
    destruct (for_each_touch (frame_step a K s e) (data_ok n)
                (λ t, t !! key = d !! key) (λ _, False) (seqZ s (e + 1 - s)))
      with (s := t) as (t' & Hrun' & Ht' & Hkeep & _); [|done|by exists t'].
    intros f u Hf Hu. apply elem_of_seqZ in Hf. unfold frame_step.
    destruct (for_each_touch (joint_step a K s e f) (data_ok n)
                (λ t, t !! key = d !! key) (λ _, False) all_joints)
      with (s := u) as (u' & Hrun' & Hu' & Hkeep & _); [|done|by exists u'].
    intros joint w Hjoint Hw.
    destruct (joint_step_run a Hregistry Hrange s e f joint w)
      as (v & col & _ & _ & Hlen & _ & Hstep); [done|lia|done..|].
    eexists. split; [exact Hstep|]. split_and!; [| |done].
    - apply data_ok_insert; [done|]. by rewrite length_insert.
    - intros Hsame. rewrite lookup_insert_ne; [done|]. by intros ->. }
  rewrite Hrun in Hrun'. injection Hrun' as <-. by apply Hkeep.
Qed.
End untouched_keys.

(** The result of the segment loops does not depend on what the arrays held
    before: every cell of every joint column is overwritten. *)
Lemma segments_overwrite (a : animator) (d1 d2 r1 r2 : gmap string (list R)) :
  registry_ok a → keyframes_in_range a → 2 ≤ total_frames a →
  is_Some (keyframes a !! 0) → is_Some (keyframes a !! (total_frames a - 1)) →
  data_ok (total_frames a) d1 → data_ok (total_frames a) d2 →
  (∀ key, key ∉ all_joints → d1 !! key = d2 !! key) →
  for_each (segment_step a (sorted_keys (keyframes a)))
           (segments (sorted_keys (keyframes a))) d1 = Ok r1 →
  for_each (segment_step a (sorted_keys (keyframes a)))
           (segments (sorted_keys (keyframes a))) d2 = Ok r2 →
  r1 = r2.
Proof.
  intros Hreg Hrange Htf H0 Hlast Hd1 Hd2 Hsame Hr1 Hr2.
  apply map_eq. intros key.
  destruct (decide (key ∈ all_joints)) as [Hjoint|Hother].
  2:{ rewrite (segments_other_keys a key Hreg Hrange Hother d1 r1 Hd1 Hr1).
      rewrite (segments_other_keys a key Hreg Hrange Hother d2 r2 Hd2 Hr2).
      by apply Hsame. }
  destruct (segments_run a Hreg Hrange d1 Hd1) as (r1' & Hr1' & Hok1).
  destruct (segments_run a Hreg Hrange d2 Hd2) as (r2' & Hr2' & Hok2).
  rewrite Hr1 in Hr1'. injection Hr1' as <-.
  rewrite Hr2 in Hr2'. injection Hr2' as <-.
  destruct (Hok1 key Hjoint) as (c1 & Hc1 & Hlen1).
  destruct (Hok2 key Hjoint) as (c2 & Hc2 & Hlen2).
  rewrite Hc1, Hc2. f_equal. apply list_eq. intros i.
  destruct (decide (i < length c1)%nat) as [Hi|Hi].
  2:{ rewrite !lookup_ge_None_2; [done|lia|lia]. }
  pose proof (sorted_keys_lt (keyframes a)) as Hsorted.
  assert (head (sorted_keys (keyframes a)) = Some 0) as Hhead.
  { apply elem_of_sorted_keys in H0.
    destruct (sorted_keys (keyframes a)) as [|x l] eqn:HK; [by apply elem_of_nil in H0|].
    simpl. f_equal. apply elem_of_cons in H0 as [->|H0]; [done|].
    apply StronglySorted_inv in Hsorted as [_ Hx]. rewrite Forall_forall in Hx.
    specialize (Hx 0 H0).
    assert (0 ≤ x); [|lia]. apply (Hrange x). apply elem_of_sorted_keys.
    rewrite HK. left. }
  destruct (segments_writer (sorted_keys (keyframes a)) 0 (total_frames a - 1)
              (Z.of_nat i)) as (s & e & Hseg & Hwrites); [done|done| | |lia|lia|].
  { by apply elem_of_sorted_keys. }
  { intros k Hk. apply elem_of_sorted_keys in Hk. pose proof (Hrange k Hk). lia. }
  destruct (segments_spec _ _ _ Hsorted Hseg) as (Hs & He & Hlt & _).
  apply elem_of_sorted_keys in Hs, He.
  destruct (cell_value_Ok a (sorted_keys (keyframes a)) s e (Z.of_nat i) key)
    as [v Hv]; [by auto..|].
  assert (∀ d r, data_ok (total_frames a) d →
            for_each (segment_step a (sorted_keys (keyframes a)))
                     (segments (sorted_keys (keyframes a))) d = Ok r →
            cell_is r key (Z.of_nat i) v) as Hcell.
  { intros d r Hd Hr.
    destruct (segments_last_write a Hreg Hrange (Z.of_nat i) key) with
      (s := s) (e := e) (d := d) (v0 := v) as (r' & Hr' & _ & Hcell);
      [lia|done|done| | |done|done|].
    - destruct Hwrites as [?|[? ?]]; lia.
    - intros Hie k Hk. apply elem_of_sorted_keys in Hk. pose proof (Hrange k Hk).
      destruct Hwrites as [?|[? ?]]; lia.
    - rewrite Hr in Hr'. by injection Hr' as <-. }
  destruct (Hcell d1 r1 Hd1 Hr1) as (c1' & Hc1' & Hv1).
  destruct (Hcell d2 r2 Hd2 Hr2) as (c2' & Hc2' & Hv2).
  rewrite Hc1 in Hc1'. injection Hc1' as <-.
  rewrite Hc2 in Hc2'. injection Hc2' as <-.
  rewrite Nat2Z.id in Hv1, Hv2. by rewrite Hv1, Hv2.
Qed.

Lemma normalize_nonempty (tf : Z) (kf kf' : gmap Z (gmap string R)) :
  normalize tf kf = Ok kf' → kf' ≠ ∅.
Proof.
  intros Hnorm Hempty. destruct (normalize_spec _ _ _ Hnorm) as ([m H0] & _).
  rewrite Hempty, lookup_empty in H0. done.
Qed.

Lemma generate_with_keyframes_data_irrelevant (a : animator) (d : gmap string (list R)) :
  well_formed a → keyframes_in_range a → 2 ≤ total_frames a →
  data_ok (total_frames a) d →
  (∀ key, key ∉ all_joints → d !! key = data a !! key) →
  generate_with_keyframes (set_data a d) = generate_with_keyframes a.
Proof.
  intros (Hn & Hreg & Hdata) Hrange Htf Hd Hsame.
  destruct (normalize_Ok (total_frames a) (keyframes a)) as [kf' Hnorm].
  pose proof (normalize_in_range a kf' ltac:(lia) Hrange Hnorm) as Hrange'.
  destruct (normalize_spec _ _ _ Hnorm) as (H0 & Hlast & _).
  destruct (segments_run (set_keyframes a kf') Hreg Hrange' (data a) Hdata)
    as (r1 & Hr1 & _).
  destruct (segments_run (set_keyframes a kf') Hreg Hrange' d Hd) as (r2 & Hr2 & _).
  assert (r2 = r1) as ->.
  { apply (segments_overwrite (set_keyframes a kf') d (data a)); done. }
  unfold generate_with_keyframes, assemble.
  change (total_frames (set_data a d)) with (total_frames a).
  change (keyframes (set_data a d)) with (keyframes a).
  rewrite Hnorm. cbn [mbind result_bind].
  change (for_each (segment_step (set_keyframes a kf') (sorted_keys kf'))
                   (segments (sorted_keys kf')) d = Ok r1) in Hr2.
  change (for_each (segment_step (set_keyframes a kf') (sorted_keys kf'))
                   (segments (sorted_keys kf')) (data a) = Ok r1) in Hr1.
  change (data (set_keyframes a kf')) with (data a). rewrite Hr1.
  change (for_each (segment_step (set_keyframes (set_data a d) kf') (sorted_keys kf'))
            (segments (sorted_keys kf')) (data (set_keyframes (set_data a d) kf')))
    with (for_each (segment_step (set_keyframes a kf') (sorted_keys kf'))
            (segments (sorted_keys kf')) d).
  rewrite Hr2. done.
Qed.

(** X10. [generate_movement] overwrites every cell of every joint column:
    on a well-formed animator with keyframes, what the arrays held before
    the call (the initial fill, or the result of an earlier call) has no
    influence on the result. *)
Theorem generate_movement_overwrites_data (a : animator) (d : gmap string (list R)) :
  well_formed a → keyframes_in_range a → 2 ≤ total_frames a → keyframes a ≠ ∅ →
  data_ok (total_frames a) d →
  (∀ key, key ∉ all_joints → d !! key = data a !! key) →
  generate_movement (set_data a d) = generate_movement a.
Proof.
  intros Hwf Hrange Htf Hne Hd Hsame. unfold generate_movement.
  change (keyframes (set_data a d)) with (keyframes a).
  rewrite !decide_False by (by rewrite sorted_keys_nil).
  by apply generate_with_keyframes_data_irrelevant.
Qed.

Lemma generate_movement_overwrites_data_witness :
  generate_movement
    (set_data three_frames (<["joint_1" := [7; 7; 7]%R]> (data three_frames)))
  = generate_movement three_frames.
Proof.
  destruct three_frames_ok as (Hwf & Hrange & Hne & _).
  apply generate_movement_overwrites_data; [done|done|done|done| |].
  - destruct Hwf as (_ & _ & Hdata). by apply data_ok_insert.
  - intros key Hkey. rewrite lookup_insert_ne; [done|].
    intros <-. apply Hkey. apply elem_of_all_joints. auto.
Defined.

(** What a finished generation leaves behind. *)
Lemma generate_movement_result (a : animator) :
  well_formed a → keyframes_in_range a → 2 ≤ total_frames a → keyframes a ≠ ∅ →
  ∃ kf' d',
    normalize (total_frames a) (keyframes a) = Ok kf' ∧
    generate_movement a = Ok (set_data (set_keyframes a kf') d') ∧
    data_ok (total_frames a) d' ∧
    ∀ key, key ∉ all_joints → d' !! key = data a !! key.
Proof.
  intros Hwf Hrange Htf Hne.
  destruct (assemble_exact a Hwf Hrange Htf) as (kf' & r & Hnorm & Hraw & Hr & _).
  destruct Hwf as (Hn & Hreg & Hdata).
  pose proof (normalize_in_range a kf' ltac:(lia) Hrange Hnorm) as Hrange'.
  destruct (apply_smoothing_run (set_data (set_keyframes a kf') r) Hreg Hr)
    as (d' & Hsmooth & Hout & Hin).
  exists kf', d'. split; [done|]. split.
  { unfold generate_movement. rewrite decide_False by (by rewrite sorted_keys_nil).
    unfold generate_with_keyframes. rewrite Hraw. exact Hsmooth. }
  split.
  - intros joint Hjoint. destruct (Hr joint Hjoint) as (col & Hcol & Hlen).
    destruct (decide (joint ∈ rotational_joints)) as [Hrot|Hrot].
    + destruct (Hreg joint Hjoint) as [factor Hfactor].
      rewrite (Hin joint factor col Hrot Hfactor Hcol).
      eexists. split; [done|]. by rewrite length_moving_average.
    + rewrite (Hout joint Hrot). eauto.
  - intros key Hkey. rewrite Hout.
    2:{ intros Hrot. apply Hkey. by apply rotational_in_all. }
    pose proof (assemble_inv a _ kf' Hnorm Hraw) as Hrun.
    by apply (segments_other_keys (set_keyframes a kf') key Hreg Hrange' Hkey (data a) r).
Qed.

(** X11. Calling [generate_movement] again on the animator a first call
    left behind returns the same trajectory: the store is already
    normalised, and the arrays are overwritten with what the keyframes
    determine. *)
Theorem generate_movement_idempotent (a final : animator) :
  well_formed a → keyframes_in_range a → 2 ≤ total_frames a → keyframes a ≠ ∅ →
  generate_movement a = Ok final →
  generate_movement final = Ok final.
Proof.
  intros Hwf Hrange Htf Hne Hrun.
  destruct (generate_movement_result a Hwf Hrange Htf Hne)
    as (kf' & d' & Hnorm & Hrun' & Hd' & Hkeys).
  rewrite Hrun in Hrun'. injection Hrun' as ->.
  pose proof Hwf as (Hn & Hreg & Hdata).
  pose proof (normalize_in_range a kf' ltac:(lia) Hrange Hnorm) as Hrange'.
  pose proof (normalize_nonempty _ _ _ Hnorm) as Hne'.
  destruct (normalize_spec _ _ _ Hnorm) as (H0 & Hlast & _).
  assert (generate_movement (set_keyframes a kf') = generate_movement a) as Hsame.
  { unfold generate_movement.
    rewrite !decide_False by (by rewrite sorted_keys_nil).
    unfold generate_with_keyframes, assemble.
    change (total_frames (set_keyframes a kf')) with (total_frames a).
    change (keyframes (set_keyframes a kf')) with kf'.
    rewrite (normalize_present (total_frames a) kf' H0 Hlast), Hnorm. done. }
  rewrite <- Hrun, <- Hsame. unfold generate_movement.
  change (keyframes (set_data (set_keyframes a kf') d')) with kf'.
  change (keyframes (set_keyframes a kf')) with kf'.
  rewrite !decide_False by (by rewrite sorted_keys_nil).
  by apply generate_with_keyframes_data_irrelevant.
Qed.

Lemma generate_movement_idempotent_witness :
  ∃ final,
    generate_movement three_frames = Ok final ∧ generate_movement final = Ok final.
Proof.
  destruct three_frames_ok as (Hwf & Hrange & Hne & _).
  destruct (generate_movement three_frames) as [final|e] eqn:Hrun.
  - exists final. split; [done|].
    by apply (generate_movement_idempotent three_frames final).
  - destruct (generate_movement_result three_frames Hwf Hrange ltac:(done) Hne)
      as (kf' & d' & _ & Hok & _).
    rewrite Hrun in Hok. discriminate.
Defined.

(** X12. A successful [generate_movement] changes the keyframe store only
    by normalising it and the data only in the nine joint columns: the
    frame count, the oscillation registry and every other column (the
    [frame] column) are as before, every joint column still has
    [total_frames] cells, and the animator is again well formed with its
    keyframes on frames of the trajectory. *)
Theorem generate_movement_keeps (a : animator) :
  well_formed a → keyframes_in_range a → 2 ≤ total_frames a → keyframes a ≠ ∅ →
  ∃ final,
    generate_movement a = Ok final ∧
    well_formed final ∧ keyframes_in_range final ∧
    total_frames final = total_frames a ∧
    global_osc_factor final = global_osc_factor a ∧
    osc_factors final = osc_factors a ∧ osc_params final = osc_params a ∧
    normalize (total_frames a) (keyframes a) = Ok (keyframes final) ∧
    (∀ k m, keyframes a !! k = Some m → keyframes final !! k = Some m) ∧
    (∀ key, key ∉ all_joints → data final !! key = data a !! key).
Proof.
  intros Hwf Hrange Htf Hne.
  destruct (generate_movement_result a Hwf Hrange Htf Hne)
    as (kf' & d' & Hnorm & Hrun & Hd' & Hkeys).
  destruct Hwf as (Hn & Hreg & Hdata).
  eexists. split; [exact Hrun|].
  split_and!; try done.
  - by apply (normalize_in_range a kf'); [lia|..].
  - intros k m Hk. by apply (normalize_spec _ _ _ Hnorm).
Qed.

Lemma generate_movement_keeps_witness :
  ∃ final,
    generate_movement three_frames = Ok final ∧
    data final !! "frame" = Some [0; 1; 2]%R.
Proof.
  destruct three_frames_ok as (Hwf & Hrange & Hne & _).
  destruct (generate_movement_keeps three_frames Hwf Hrange ltac:(done) Hne)
    as (final & Hrun & _ & _ & _ & _ & _ & _ & _ & _ & Hkeys).
  exists final. split; [done|]. rewrite Hkeys; [done|].
  rewrite elem_of_all_joints. intros Hin.
  repeat (destruct Hin as [Hin|Hin]; [discriminate|]). discriminate.
Defined.

(** ** The default movement *)

Lemma default_keyframes_lookup (a : animator) (k : Z) :
  keyframes a = ∅ →
  is_Some (keyframes (default_keyframes a) !! k) ↔
  k = 0 ∨ k = 100 ∨ k = 200 ∨ k = 210 ∨ k = 399.
Proof.
  intros Hempty. unfold default_keyframes, add_keyframe. simpl.
  rewrite Hempty, !lookup_insert. split.
  - repeat (case_decide; [by auto 6|]). rewrite lookup_empty. by intros [? ?].
  - intros [->|[->|[->|[->| ->]]]]; simpl; eauto.
Qed.

(** X13. With no keyframe in the store, [generate_movement] falls back to
    the built-in five-keyframe movement, whose last keyframe is at frame
    399: on a well-formed animator the call raises [IndexError] when
    [total_frames] is below 400 and returns a trajectory otherwise, with
    the five default keyframes in the store. *)
Theorem default_movement_needs_400_frames (a : animator) :
  well_formed a → keyframes a = ∅ →
  (total_frames a < 400 → generate_movement a = Raise IndexError) ∧
  (400 ≤ total_frames a →
   ∃ final,
     generate_movement a = Ok final ∧
     ∀ k, k = 0 ∨ k = 100 ∨ k = 200 ∨ k = 210 ∨ k = 399 →
          keyframes final !! k = keyframes (default_keyframes a) !! k).
Proof.
  intros Hwf Hempty.
  assert (generate_movement a = generate_movement (default_keyframes a)) as ->.
  { rewrite default_keyframes_nonempty. unfold generate_movement.
    rewrite decide_True; [done|]. by rewrite sorted_keys_nil. }
  assert (well_formed (default_keyframes a)) as Hwf' by exact Hwf.
  split.
  - intros Hsmall. apply (generate_movement_out_of_range _ 399); [done| |].
    + apply default_keyframes_lookup; auto 6.
    + left. change (total_frames (default_keyframes a)) with (total_frames a). lia.
  - intros Hlarge.
    destruct (generate_movement_result (default_keyframes a)) as
      (kf' & d' & Hnorm & Hrun & _);
      [done| |change (2 ≤ total_frames a); lia|apply insert_non_empty|].
    { intros k Hk. apply default_keyframes_lookup in Hk; [|done].
      change (total_frames (default_keyframes a)) with (total_frames a). lia. }
    eexists. split; [exact Hrun|].
    intros k Hk. apply (default_keyframes_lookup a k Hempty) in Hk as [m Hm].
    rewrite Hm. by apply (normalize_spec _ _ _ Hnorm).
Qed.

Lemma default_movement_needs_400_frames_witness :
  generate_movement (init 100 1) = Raise IndexError ∧
  ∃ final, generate_movement (init 400 1) = Ok final.
Proof.
  split.
  - apply (default_movement_needs_400_frames (init 100 1));
      [by apply init_well_formed|done|simpl; lia].
  - destruct (default_movement_needs_400_frames (init 400 1)) as [_ Hok];
      [by apply init_well_formed|done|].
    destruct Hok as (final & Hrun & _); [simpl; lia|]. eauto.
Defined.

(** ** More on smoothing *)

Lemma foldr_Rplus_bounds (l : list R) (lo hi : R) :
  Forall (λ x, lo <= x <= hi)%R l →
  (INR (length l) * lo <= foldr Rplus 0 l <= INR (length l) * hi)%R.
Proof.
  induction 1 as [|x l Hx Hl IH].
  - simpl. lra.
  - cbn [foldr length]. rewrite S_INR. lra.
Qed.

Lemma np_mean_bounds (l : list R) (lo hi : R) :
  l ≠ [] → Forall (λ x, lo <= x <= hi)%R l → (lo <= np_mean l <= hi)%R.
Proof.
  intros Hne Hl. pose proof (foldr_Rplus_bounds l lo hi Hl) as [Hlo Hhi].
  assert (0 < INR (length l))%R as Hlen.
  { apply lt_0_INR. destruct l; [done|simpl; lia]. }
  unfold np_mean. split.
  - apply (Rmult_le_reg_r (INR (length l))); [done|].
    unfold Rdiv. rewrite Rmult_assoc, Rinv_l by lra. lra.
  - apply (Rmult_le_reg_r (INR (length l))); [done|].
    unfold Rdiv. rewrite Rmult_assoc, Rinv_l by lra. lra.
Qed.

(** X14. Smoothing does not leave the range of what it averages: when the
    raw cells in the window around index [i] all lie between [lo] and [hi],
    so does the smoothed cell.  In particular a stretch where the raw
    column is constant over the whole window is returned unchanged. *)
Theorem smoothing_stays_in_range (col : list R) (w : Z) (i : nat) (lo hi : R) :
  0 ≤ w → (i < length col)%nat →
  (∀ (t : nat) x,
     Z.max 0 (Z.of_nat i - w `div` 2) ≤ Z.of_nat t
       < Z.min (Z.of_nat (length col)) (Z.of_nat i + w `div` 2 + 1) →
     col !! t = Some x → (lo <= x <= hi)%R) →
  ∃ y, moving_average col w !! i = Some y ∧ (lo <= y <= hi)%R ∧
       (lo = hi → col !! i = Some y).
Proof.
  intros Hw Hi Hwindow.
  assert (0 ≤ w `div` 2) as Hhalf by (apply Z.div_pos; lia).
  set (start := Z.max 0 (Z.of_nat i - w `div` 2)) in *.
  set (stop := Z.min (Z.of_nat (length col)) (Z.of_nat i + w `div` 2 + 1)) in *.
  assert (0 ≤ start ≤ Z.of_nat i ∧ Z.of_nat i < stop ≤ Z.of_nat (length col))
    as Hbounds by (unfold start, stop; lia).
  assert (Z.of_nat (length (slice col start stop)) = stop - start) as Hlen
    by (apply length_slice; lia).
  assert (lo <= np_mean (slice col start stop) <= hi)%R as Hmean.
  { apply np_mean_bounds.
    - intros Hnil. rewrite Hnil in Hlen. simpl in Hlen. lia.
    - apply Forall_forall. intros x Hx.
      apply list_elem_of_lookup in Hx as [t Ht].
      pose proof (lookup_lt_Some _ _ _ Ht) as Htlen.
      rewrite slice_lookup in Ht by lia.
      apply (Hwindow (Z.to_nat start + t)%nat); [lia|done]. }
  exists (np_mean (slice col start stop)).
  split; [by apply moving_average_lookup|]. split; [done|].
  intros ->. destruct (lookup_lt_is_Some_2 col i Hi) as [x Hx].
  rewrite Hx. f_equal. specialize (Hwindow i x ltac:(lia) Hx). lra.
Qed.

Lemma smoothing_stays_in_range_witness :
  ∃ y, moving_average [2; 2; 2; 9]%R 3 !! 1%nat = Some y ∧ (2 <= y <= 2)%R.
Proof.
  destruct (smoothing_stays_in_range [2; 2; 2; 9]%R 3 1 2 2) as (y & Hy & Hrange & _).
  - lia.
  - simpl. lia.
  - intros t x Ht. change (3 `div` 2) with 1 in Ht. simpl in Ht.
    assert (t = 0 ∨ t = 1 ∨ t = 2)%nat as [->|[->| ->]] by lia;
      intros [= <-]; lra.
  - eauto.
Defined.

Lemma Int_part_monotone (x y : R) : (x <= y)%R → Int_part x ≤ Int_part y.
Proof.
  intros Hxy. destruct (base_Int_part x) as [Hx1 Hx2].
  destruct (base_Int_part y) as [Hy1 Hy2].
  assert (IZR (Int_part x) < IZR (Int_part y + 1))%R as Hlt.
  { rewrite plus_IZR. lra. }
  apply lt_IZR in Hlt. lia.
Qed.

Lemma py_int_monotone (x y : R) : (x <= y)%R → py_int x ≤ py_int y.
Proof.
  intros Hxy. unfold py_int.
  destruct (decide (0 <= x)%R) as [Hx|Hx]; destruct (decide (0 <= y)%R) as [Hy|Hy].
  - by apply Int_part_monotone.
  - lra.
  - assert (0 ≤ Int_part y) by (rewrite <- (Int_part_eq 0 0) by lra; by apply Int_part_monotone).
    assert (0 ≤ Int_part (- x)).
    { rewrite <- (Int_part_eq 0 0) by lra. apply Int_part_monotone. lra. }
    lia.
  - assert (Int_part (- y) ≤ Int_part (- x)) by (apply Int_part_monotone; lra). lia.
Qed.

(** X15. The smoothing window is at least 3, grows with the oscillation
    factor ("more oscillation = more smoothing"), and is exactly 3 for every
    factor below 0.8. *)
Theorem smoothing_window_grows (f1 f2 : R) :
  3 ≤ smoothing_window f1 ∧
  ((f1 <= f2)%R → smoothing_window f1 ≤ smoothing_window f2) ∧
  ((f1 < 0.8)%R → smoothing_window f1 = 3).
Proof.
  unfold smoothing_window. split; [lia|]. split.
  - intros Hle. assert (py_int (f1 * 5) ≤ py_int (f2 * 5)); [|lia].
    apply py_int_monotone. lra.
  - intros Hsmall. assert (py_int (f1 * 5) < 4); [|lia].
    unfold py_int. case_decide as Hsign.
    + destruct (base_Int_part (f1 * 5)) as [Hfloor _].
      apply lt_IZR. lra.
    + assert (0 ≤ Int_part (- (f1 * 5))); [|lia].
      rewrite <- (Int_part_eq 0 0) by lra. apply Int_part_monotone. lra.
Qed.

Lemma smoothing_window_grows_witness :
  smoothing_window 0.3 = 3 ∧ smoothing_window 0.3 ≤ smoothing_window 2.
Proof.
  destruct (smoothing_window_grows 0.3 2) as (_ & Hmono & Hmin).
  split; [apply Hmin; lra|apply Hmono; lra].
Defined.

(** ** Setters and the rest of the animator *)

Lemma dom_insert_present {V} (m : gmap string V) (k : string) (v : V) :
  is_Some (m !! k) → dom (<[k := v]> m) = dom m.
Proof.
  intros Hk. rewrite dom_insert_L. apply elem_of_dom in Hk.
  apply subseteq_union_1_L. by apply singleton_subseteq_l.
Qed.

(** X16. No setter adds or removes a joint, and none touches the keyframes,
    the arrays or the frame count; so each keeps a well-formed animator
    well formed, and setter calls can be made in any number before
    generation. *)
Theorem setters_keep_animator (a : animator) (joint_name : string) (x : R) :
  same_joints_and_frames a (set_global_oscillation_factor a x).1 ∧
  same_joints_and_frames a (set_joint_oscillation_factor a joint_name x).1 ∧
  same_joints_and_frames a (set_all_joints_oscillation a x).1 ∧
  same_joints_and_frames a (set_oscillation_amplitude a joint_name x).1 ∧
  same_joints_and_frames a (set_oscillation_frequency a joint_name x).1 ∧
  ∀ a', same_joints_and_frames a a' → well_formed a → well_formed a'.
Proof.
  split_and!.
  - done.
  - unfold set_joint_oscillation_factor.
    destruct (osc_factors a !! joint_name) eqn:Hj; [|done].
    split_and!; [done..| |done]. simpl. apply dom_insert_present. eauto.
  - split_and!; [done..| |done]. simpl. apply dom_fmap_L.
  - unfold set_oscillation_amplitude.
    destruct (osc_params a !! joint_name) eqn:Hj; [|done].
    split_and!; [done..|]. simpl. apply dom_insert_present. eauto.
  - unfold set_oscillation_frequency.
    destruct (osc_params a !! joint_name) eqn:Hj; [|done].
    split_and!; [done..|]. simpl. apply dom_insert_present. eauto.
  - intros a' (Hkf & Hdata & Htf & Hfactors & _) (Hn & Hreg & Hd).
    split_and!.
    + by rewrite Htf.
    + intros joint Hjoint. apply elem_of_dom. rewrite Hfactors.
      apply elem_of_dom. by apply Hreg.
    + by rewrite Htf, Hdata.
Qed.

Lemma setters_keep_animator_witness :
  well_formed (set_oscillation_amplitude
                 (set_joint_oscillation_factor (init 400 1) "joint_3" 0.3).1
                 "joint_1" 5).1.
Proof.
  pose proof (init_well_formed 400 1 ltac:(lia)) as Hwf.
  destruct (setters_keep_animator (init 400 1) "joint_3" 0.3) as (_ & H1 & _ & _ & _ & K1).
  pose proof (K1 _ H1 Hwf) as Hwf1.
  destruct (setters_keep_animator
              (set_joint_oscillation_factor (init 400 1) "joint_3" 0.3).1 "joint_1" 5)
    as (_ & _ & _ & H2 & _ & K2).
  exact (K2 _ H2 Hwf1).
Defined.

(** * Properties of the publisher's timer callback *)

Section node.
Context (float_of_string : string → option R) (int_of_string : string → option Z).

Let columns : list string :=
  ["joint_1"; "joint_2"; "joint_3"; "joint_4"; "joint_5"; "joint_6";
   "joint_7"; "Slider 22"; "Slider 23"].

Lemma get_joint_values_from_row_init (joint_prefix : string)
    (row : gmap string Publisher.cell) :
  Publisher.get_joint_values_from_row float_of_string (Publisher.init joint_prefix) row
  = Ok (Publisher.degrees_channel float_of_string row <$> columns).
Proof.
  destruct (init_entries joint_prefix) as (entries & Hnames & Hcols & Hentries).
  unfold Publisher.get_joint_values_from_row. rewrite Hnames.
  rewrite (row_loop float_of_string _ row entries []) by done. simpl. f_equal.
  change ((λ e : string * Publisher.joint_entry,
             Publisher.degrees_channel float_of_string row (Publisher.csv_column e.2))
          <$> entries)
    with ((Publisher.degrees_channel float_of_string row ∘ Publisher.csv_column ∘ snd)
          <$> entries).
  rewrite !list_fmap_compose. by rewrite Hcols.
Qed.

Lemma joint_names_init (joint_prefix : string) :
  Publisher.joint_names (Publisher.init joint_prefix)
  = (λ column, joint_prefix +:+ column) <$> columns.
Proof.
  unfold Publisher.init. case_decide as Hprefix; [|done]. by subst.
Qed.

Lemma iloc_in_range (rows : list (gmap string Publisher.cell)) (i : nat)
    (row : gmap string Publisher.cell) :
  rows !! i = Some row → Node.iloc rows (Z.of_nat i) = Ok row.
Proof.
  intros Hrow. pose proof (lookup_lt_Some _ _ _ Hrow) as Hlt.
  unfold Node.iloc. rewrite np_index_in_range by lia. simpl.
  by rewrite Nat2Z.id, Hrow.
Qed.

(** Publishing the row at index [i]. *)
Lemma publish_row (n : Node.node) (joint_prefix : string) (i : nat)
    (row : gmap string Publisher.cell) :
  Node.config n = Publisher.init joint_prefix →
  Node.data n !! i = Some row →
  Node.frame_cell_ok int_of_string (Node.frame_column n) row →
  (Node.current_frame n = Z.of_nat i ∨
   (Node.current_frame n = Node.total_frames n ∧ Node.loop n = true ∧ i = 0%nat)) →
  Node.publish_next_frame float_of_string int_of_string n
  = Ok (Node.Node (Node.config n) (Node.data n) (Node.frame_column n) (Node.loop n)
          (Z.of_nat i + 1) (Node.frames_published n + 1) (Node.timer_cancelled n)
          (Node.published n ++ [Node.message_of float_of_string joint_prefix row])%list).
Proof.
  intros Hconfig Hrow Hcell Hcurrent.
  pose proof (lookup_lt_Some _ _ _ Hrow) as Hlt.
  unfold Node.publish_next_frame.
  assert ((if bool_decide (Node.total_frames n ≤ Node.current_frame n)
           then (if Node.loop n then Some 0 else None)
           else Some (Node.current_frame n)) = Some (Z.of_nat i)) as ->.
  { unfold Node.total_frames in *. destruct Hcurrent as [->|(-> & -> & ->)].
    - by rewrite bool_decide_eq_false_2 by lia.
    - by rewrite bool_decide_eq_true_2 by lia. }
  rewrite (iloc_in_range _ _ _ Hrow). cbn [mbind result_bind].
  assert (∃ z, match row !! Node.frame_column n with
               | Some c => Node.py_int_cell int_of_string c
               | None => Ok (Z.of_nat i)
               end = Ok z) as [z ->].
  { destruct (row !! Node.frame_column n) as [c|] eqn:Hc; [by apply Hcell|by eauto]. }
  cbn [mbind result_bind].
  rewrite Hconfig, get_joint_values_from_row_init. cbn [mbind result_bind].
  rewrite joint_names_init. done.
Qed.

Lemma ticks_succ_end (k : nat) (n : Node.node) :
  Node.ticks float_of_string int_of_string (S k) n
  = Node.ticks float_of_string int_of_string k n
    ≫= Node.tick float_of_string int_of_string.
Proof.
  revert n. induction k as [|k IH]; intros n.
  - simpl. by destruct (Node.tick float_of_string int_of_string n).
  - change (Node.ticks float_of_string int_of_string (S (S k)) n)
      with (Node.tick float_of_string int_of_string n
            ≫= Node.ticks float_of_string int_of_string (S k)).
    cbn [Node.ticks].
    destruct (Node.tick float_of_string int_of_string n) as [n'|e]; [|done].
    cbn [mbind result_bind]. apply IH.
Qed.

(** X17. In loop mode the callback never cancels its timer and never runs
    out of rows: after [k] firings it has published [k] messages, the
    [i]-th made from row [i mod total_frames], each with the nine joint
    names, the nine converted positions and nine zero velocities and
    efforts. *)
Theorem loop_mode_cycles (joint_prefix : string)
    (rows : list (gmap string Publisher.cell)) (frame_column : string)
    (n0 : Node.node) (k : nat) :
  Node.start joint_prefix rows frame_column true = Some n0 →
  Forall (Node.frame_cell_ok int_of_string frame_column) rows →
  ∃ nk,
    Node.ticks float_of_string int_of_string k n0 = Ok nk ∧
    Node.timer_cancelled nk = false ∧
    Node.frames_published nk = Z.of_nat k ∧
    length (Node.published nk) = k ∧
    ∀ i, (i < k)%nat →
      ∃ row, rows !! (i mod length rows)%nat = Some row ∧
             Node.published nk !! i
             = Some (Node.message_of float_of_string joint_prefix row).
Proof.
  intros Hstart Hcells.
  assert (rows ≠ []) as Hne by (intros ->; discriminate).
  assert (0 < length rows)%nat as Hlen by (destruct rows; [done|simpl; lia]).
  assert (n0 = Node.Node (Publisher.init joint_prefix) rows frame_column true 0 0 false [])
    as -> by (destruct rows; [done|by injection Hstart as <-]).
  clear Hstart.
  assert (∃ nk c,
    Node.ticks float_of_string int_of_string k
      (Node.Node (Publisher.init joint_prefix) rows frame_column true 0 0 false [])
      = Ok nk ∧
    Node.config nk = Publisher.init joint_prefix ∧ Node.data nk = rows ∧
    Node.frame_column nk = frame_column ∧ Node.loop nk = true ∧
    Node.current_frame nk = Z.of_nat c ∧ (c ≤ length rows)%nat ∧
    (c mod length rows = k mod length rows)%nat ∧
    Node.timer_cancelled nk = false ∧
    Node.frames_published nk = Z.of_nat k ∧
    length (Node.published nk) = k ∧
    ∀ i, (i < k)%nat →
      ∃ row, rows !! (i mod length rows)%nat = Some row ∧
             Node.published nk !! i
             = Some (Node.message_of float_of_string joint_prefix row)) as Hinv.
  { induction k as [|k IH].
    - eexists _, 0%nat. split; [done|]. simpl. split_and!; try done; [lia|].
      intros i Hi. lia.
    - destruct IH as (nk & c & Hrun & Hcfg & Hdata & Hfc & Hloop & Hcur & Hc & Hmod
                      & Htimer & Hfp & Hpub & Hmsgs).
      rewrite ticks_succ_end, Hrun. cbn [mbind result_bind].
      unfold Node.tick. rewrite Htimer.
      assert (k mod length rows < length rows)%nat as Hidx
        by (apply Nat.mod_upper_bound; lia).
      destruct (lookup_lt_is_Some_2 rows _ Hidx) as [row Hrow].
      rewrite (publish_row nk joint_prefix (k mod length rows) row).
      + eexists _, (S (k mod length rows)). split; [done|]. simpl.
        split_and!; try done.
        * lia.
        * replace (S (k mod length rows)) with (k mod length rows + 1)%nat by lia.
          rewrite Nat.Div0.add_mod_idemp_l. f_equal. lia.
        * lia.
        * rewrite length_app. simpl. lia.
        * intros i Hi. destruct (decide (i < k)%nat) as [Hik|Hik].
          -- destruct (Hmsgs i Hik) as (row' & Hrow' & Hi').
             exists row'. split; [done|]. by rewrite lookup_app_l by lia.
          -- assert (i = k) as -> by lia. exists row. split; [done|].
             rewrite lookup_app_r by lia. by rewrite Hpub, Nat.sub_diag.
      + done.
      + by rewrite Hdata.
      + rewrite Hfc. rewrite Forall_forall in Hcells. apply Hcells.
        by eapply list_elem_of_lookup_2.
      + rewrite Hcur. unfold Node.total_frames. rewrite Hdata, Hloop.
        destruct (decide (c = length rows)) as [->|Hcne].
        * right. rewrite Nat.Div0.mod_same in Hmod. by rewrite <- Hmod.
        * left. rewrite Nat.mod_small in Hmod by lia. by rewrite Hmod. }
  destruct Hinv as (nk & c & Hrun & _ & _ & _ & _ & _ & _ & _ & Htimer & Hfp & Hpub & Hmsgs).
  by exists nk.
Qed.
(** X18. Without loop mode the callback publishes the rows once, in order,
    and nothing more: after [k] firings the messages are those of the
    first [k] rows; the firing after the last row cancels the timer, and
    later firings change nothing. *)
Theorem one_shot_mode_stops (joint_prefix : string)
    (rows : list (gmap string Publisher.cell)) (frame_column : string)
    (n0 : Node.node) (k : nat) :
  Node.start joint_prefix rows frame_column false = Some n0 →
  Forall (Node.frame_cell_ok int_of_string frame_column) rows →
  ∃ nk,
    Node.ticks float_of_string int_of_string k n0 = Ok nk ∧
    Node.published nk
      = Node.message_of float_of_string joint_prefix <$> take k rows ∧
    Node.timer_cancelled nk = bool_decide (length rows < k)%nat ∧
    Node.frames_published nk = Z.of_nat (k `min` length rows) ∧
    Node.current_frame nk = Z.of_nat (k `min` length rows).
Proof.
  intros Hstart Hcells.
  assert (n0 = Node.Node (Publisher.init joint_prefix) rows frame_column false 0 0 false [])
    as -> by (destruct rows; [done|by injection Hstart as <-]).
  clear Hstart.
  assert (∃ nk,
    Node.ticks float_of_string int_of_string k
      (Node.Node (Publisher.init joint_prefix) rows frame_column false 0 0 false [])
      = Ok nk ∧
    Node.config nk = Publisher.init joint_prefix ∧ Node.data nk = rows ∧
    Node.frame_column nk = frame_column ∧ Node.loop nk = false ∧
    Node.published nk
      = Node.message_of float_of_string joint_prefix <$> take k rows ∧
    Node.timer_cancelled nk = bool_decide (length rows < k)%nat ∧
    Node.frames_published nk = Z.of_nat (k `min` length rows) ∧
    Node.current_frame nk = Z.of_nat (k `min` length rows)) as Hinv.
  { induction k as [|k IH].
    - eexists. split; [done|]. simpl. split_and!; done.
    - destruct IH as (nk & Hrun & Hcfg & Hdata & Hfc & Hloop & Hpub & Htimer & Hfp & Hcur).
      rewrite ticks_succ_end, Hrun. cbn [mbind result_bind].
      unfold Node.tick. rewrite Htimer.
      destruct (decide (length rows < k)%nat) as [Hpast|Hnotpast].
      { rewrite bool_decide_eq_true_2 by done.
        exists nk. split; [done|]. split_and!; try done.
        - rewrite Hpub, !take_ge by lia. done.
        - rewrite Htimer. by rewrite !bool_decide_eq_true_2 by lia.
        - rewrite Hfp. f_equal. lia.
        - rewrite Hcur. f_equal. lia. }
      rewrite bool_decide_eq_false_2 by done.
      destruct (decide (k = length rows)) as [->|Hk].
      { unfold Node.publish_next_frame, Node.total_frames.
        rewrite Hdata, Hcur, Hloop.
        rewrite bool_decide_eq_true_2 by lia.
        eexists. split; [done|]. cbn [Node.config Node.data Node.frame_column Node.loop Node.published
             Node.timer_cancelled Node.frames_published Node.current_frame].
        split_and!; try done.
        - rewrite Hpub, !take_ge by lia. done.
        - by rewrite bool_decide_eq_true_2 by lia.
        - rewrite Hfp. f_equal. lia.
        - f_equal. lia. }
      assert (k < length rows)%nat as Hidx by lia.
      destruct (lookup_lt_is_Some_2 rows _ Hidx) as [row Hrow].
      rewrite (publish_row nk joint_prefix k row).
      + eexists. split; [done|]. cbn [Node.config Node.data Node.frame_column Node.loop Node.published
             Node.timer_cancelled Node.frames_published Node.current_frame].
        split_and!; try done.
        * rewrite Hpub. rewrite (take_S_r _ _ _ Hrow), fmap_app. done.
        * rewrite Htimer. by rewrite !bool_decide_eq_false_2 by lia.
        * rewrite Hfp. lia.
        * lia.
      + done.
      + by rewrite Hdata.
      + rewrite Hfc. rewrite Forall_forall in Hcells. apply Hcells.
        by eapply list_elem_of_lookup_2.
      + left. rewrite Hcur. f_equal. lia. }
  destruct Hinv as (nk & Hrun & _ & _ & _ & _ & Hpub & Htimer & Hfp & Hcur).
  by exists nk.
Qed.

(** X19. The frame number is only used in a log line, yet a frame cell that
    [int] rejects stops the callback: it raises [ValueError] or [TypeError]
    before anything is published for that row, whereas a joint cell that
    [float] rejects is published as 0.0. *)
Theorem bad_frame_cell_raises (n : Node.node) (i : nat)
    (row : gmap string Publisher.cell) (c : Publisher.cell) :
  Node.timer_cancelled n = false →
  Node.current_frame n = Z.of_nat i →
  Node.data n !! i = Some row →
  row !! Node.frame_column n = Some c →
  (∀ z, Node.py_int_cell int_of_string c ≠ Ok z) →
  ∃ e, (e = ValueError ∨ e = TypeError) ∧
       Node.tick float_of_string int_of_string n = Raise e.
Proof.
  intros Htimer Hcur Hrow Hc Hbad.
  pose proof (lookup_lt_Some _ _ _ Hrow) as Hlt.
  unfold Node.tick, Node.publish_next_frame, Node.total_frames.
  rewrite Htimer, Hcur. rewrite bool_decide_eq_false_2 by lia.
  rewrite (iloc_in_range _ _ _ Hrow). cbn [mbind result_bind]. rewrite Hc.
  destruct c as [x|s|]; simpl in *.
  - by destruct (Hbad (py_int x)).
  - destruct (int_of_string s) as [z|]; [by destruct (Hbad z)|].
    exists ValueError. auto.
  - exists TypeError. auto.
Qed.
End node.

Lemma two_rows_frame_cells :
  Forall (Node.frame_cell_ok (λ _, None) "frame") two_rows.
Proof.
  repeat constructor; intros c; rewrite lookup_insert_eq; intros [= <-]; simpl; eauto.
Qed.

Lemma loop_mode_cycles_witness :
  ∃ nk,
    Node.ticks (λ _, None) (λ _, None) 3
      (Node.Node (Publisher.init "") two_rows "frame" true 0 0 false []) = Ok nk ∧
    Node.published nk !! 2%nat
    = Some (Node.message_of (λ _, None) ""
              {[ "frame" := Publisher.CNum 0; "joint_1" := Publisher.CNum 90 ]}).
Proof.
  destruct (loop_mode_cycles (λ _, None) (λ _, None) "" two_rows "frame"
              (Node.Node (Publisher.init "") two_rows "frame" true 0 0 false []) 3
              eq_refl two_rows_frame_cells) as (nk & Hrun & _ & _ & _ & Hmsgs).
  exists nk. split; [done|].
  destruct (Hmsgs 2%nat ltac:(lia)) as (row & Hrow & Hmsg).
  injection Hrow as <-. exact Hmsg.
Defined.

Lemma one_shot_mode_stops_witness :
  ∃ nk,
    Node.ticks (λ _, None) (λ _, None) 5
      (Node.Node (Publisher.init "") two_rows "frame" false 0 0 false []) = Ok nk ∧
    length (Node.published nk) = 2%nat ∧ Node.timer_cancelled nk = true.
Proof.
  destruct (one_shot_mode_stops (λ _, None) (λ _, None) "" two_rows "frame"
              (Node.Node (Publisher.init "") two_rows "frame" false 0 0 false []) 5
              eq_refl two_rows_frame_cells) as (nk & Hrun & Hpub & Htimer & _).
  exists nk. split; [done|]. split.
  - rewrite Hpub. done.
  - rewrite Htimer. done.
Defined.

Lemma bad_frame_cell_raises_witness :
  ∃ e,
    (e = ValueError ∨ e = TypeError) ∧
    Node.tick (λ _, None) (λ _, None)
      (Node.Node (Publisher.init "")
         [ {[ "frame" := Publisher.CStr "one"; "joint_1" := Publisher.CNum 90 ]} ]
         "frame" true 0 0 false []) = Raise e.
Proof.
  apply (bad_frame_cell_raises (λ _, None) (λ _, None) _ 0
           {[ "frame" := Publisher.CStr "one"; "joint_1" := Publisher.CNum 90 ]}
           (Publisher.CStr "one")); try done.
Defined.

(** * Properties of the export script *)

(** X20. The export walks the scene's frames from [frame_start] up to
    [frame_end] but never past frame 100: a frame is exported exactly when
    it lies in the scene range and is at most 100, in increasing order.
    That is at most 100 frames when the scene starts at frame 1 or later,
    and no frame at all when the range is empty or starts after 100. *)
Theorem export_frame_range (pose : Z → list (string * Exporter.euler))
    (frame_start frame_end : Z) :
  (Exporter.angles_data pose frame_start frame_end).*1
    = Exporter.frame_range frame_start frame_end ∧
  (∀ f, f ∈ Exporter.frame_range frame_start frame_end ↔
        frame_start ≤ f ≤ frame_end ∧ f ≤ 100) ∧
  StronglySorted Z.lt (Exporter.frame_range frame_start frame_end) ∧
  (1 ≤ frame_start →
   (length (Exporter.frame_range frame_start frame_end) ≤ 100)%nat) ∧
  (frame_end < frame_start ∨ 100 < frame_start →
   Exporter.angles_data pose frame_start frame_end = []).
Proof.
  unfold Exporter.angles_data, Exporter.frame_range. split_and!.
  - rewrite <- list_fmap_compose. apply list_fmap_id.
  - intros f. rewrite elem_of_seqZ. lia.
  - generalize (Z.min (frame_end + 1) 101 - frame_start). intros len.
    destruct (decide (0 ≤ len)) as [Hlen|Hlen]; [|rewrite seqZ_nil by lia; constructor].
    rewrite <- (Z2Nat.id len) by done. generalize (Z.to_nat len). clear. intros n.
    revert frame_start. induction n as [|n IH]; intros frame_start; [constructor|].
    rewrite seqZ_cons by lia.
    replace (Z.pred (Z.of_nat (S n))) with (Z.of_nat n) by lia.
    constructor; [apply IH|].
    apply Forall_forall. intros f Hf. apply elem_of_seqZ in Hf. lia.
  - intros Hstart. rewrite length_seqZ. lia.
  - intros Hempty. rewrite seqZ_nil by lia. done.
Qed.

Lemma export_frame_range_witness :
  (length (Exporter.frame_range 1 250) ≤ 100)%nat ∧
  Exporter.angles_data (λ _, []) 120 250 = [].
Proof.
  destruct (export_frame_range (λ _, []) 1 250) as (_ & _ & _ & Hcount & _).
  destruct (export_frame_range (λ _, []) 120 250) as (_ & _ & _ & _ & Hempty).
  split; [apply Hcount; lia|apply Hempty; lia].
Defined.

Lemma length_bind_const {A B} (f : A → list B) (l : list A) (n : nat) :
  (∀ a, length (f a) = n) → length (l ≫= f) = (n * length l)%nat.
Proof.
  intros Hf. induction l as [|a l IH]; [simpl; lia|].
  rewrite bind_cons, length_app, Hf, IH. simpl. lia.
Qed.

(** X21. Each of the three CSV tables is written only when there is at
    least one frame, has one row per frame, and is rectangular: every row
    has exactly as many cells as the header has names (the frame number and
    three cells per bone of the first frame, or one per bone in the z-only
    table), also for a frame that lacks one of those bones, whose cells are
    then 0. *)
Theorem csv_tables_rectangular (data : list (Z * list (string * Exporter.euler))) :
  (data = [] →
   Exporter.full_csv data = None ∧ Exporter.z_only_csv data = None ∧
   Exporter.separated_csv data = None) ∧
  (∀ first rest, data = first :: rest →
   ∃ full z_only separated,
     Exporter.full_csv data = Some full ∧
     Exporter.z_only_csv data = Some z_only ∧
     Exporter.separated_csv data = Some separated ∧
     Exporter.rectangular full ∧ Exporter.rectangular z_only ∧
     Exporter.rectangular separated ∧
     length full.1 = (1 + 3 * length first.2)%nat ∧
     length z_only.1 = (1 + length first.2)%nat ∧
     length separated.1 = (1 + 3 * length first.2)%nat ∧
     length full.2 = length data ∧ length z_only.2 = length data ∧
     length separated.2 = length data ∧
     Forall2 (λ row (frame_data : Z * list (string * Exporter.euler)),
                head row = Some (IZR frame_data.1)) full.2 data).
Proof.
  split; [by intros ->|].
  intros first rest ->.
  eexists _, _, _. split; [done|]. split; [done|]. split; [done|].
  unfold Exporter.rectangular. cbn [fst snd length].
  assert (∀ fd : Z * list (string * Exporter.euler),
            length (first.2.*1 ≫= λ b,
                      match Exporter.lookup_bone fd.2 b with
                      | Some e => [Exporter.x_deg e; Exporter.y_deg e; Exporter.z_deg e]
                      | None => [0; 0; 0]%R
                      end) = (3 * length first.2)%nat) as Hfull.
  { intros fd. rewrite (length_bind_const _ _ 3), length_fmap; [done|].
    intros b. by destruct (Exporter.lookup_bone fd.2 b). }
  assert (∀ {B} (g : string → string → B),
            length (["x"; "y"; "z"] ≫= λ axis, g axis <$> first.2.*1)
            = (3 * length first.2)%nat) as Hsep.
  { intros B g. rewrite (length_bind_const _ _ (length first.2)).
    - simpl. lia.
    - intros axis. by rewrite !length_fmap. }
  split_and!.
  - apply Forall_forall. intros row Hrow.
    apply list_elem_of_fmap in Hrow as (fd & -> & _). cbn [length].
    rewrite Hfull, (length_bind_const _ _ 3), length_fmap; done.
  - apply Forall_forall. intros row Hrow.
    apply list_elem_of_fmap in Hrow as (fd & -> & _). cbn [length].
    by rewrite !length_fmap.
  - apply Forall_forall. intros row Hrow.
    apply list_elem_of_fmap in Hrow as (fd & -> & _). cbn [length].
    rewrite (Hsep _ (λ axis b, match Exporter.lookup_bone fd.2 b with
                                | Some e => Exporter.axis_deg axis e
                                | None => 0%R
                                end)).
    by rewrite (Hsep _ (λ axis b, Exporter.replace_dot b +:+ "_" +:+ axis)).
  - rewrite (length_bind_const _ _ 3), length_fmap; [lia|done].
  - rewrite !length_fmap. lia.
  - rewrite (Hsep _ (λ axis b, Exporter.replace_dot b +:+ "_" +:+ axis)). lia.
  - by rewrite length_fmap.
  - by rewrite length_fmap.
  - by rewrite length_fmap.
  - apply Forall2_fmap_l, Forall_Forall2_diag, Forall_forall. by intros fd _.
Qed.
